(** * result-pattern: the [Result] type of [src/index.ts]

    A shallow embedding of the TypeScript module: the classes [Ok] and
    [Fail], the interface [IResult] they implement, and
    [ResultUtils.combine].

    Results are JavaScript objects: they have an identity, they are passed
    by reference, and a method may hand back its receiver ([Ok.or] returns
    [this]).  The embedding therefore keeps an explicit object store and
    runs every method in a small state-and-exception monad. *)

From Stdlib Require Import ZArith.
From stdpp Require Import base list sorting strings.

Set Default Proof Using "Type".

(** ** JavaScript values *)

(** A reference to an object of the store. *)
Definition loc := nat.

(** The payloads a Result can hold ([V] and [E] default to [unknown]).
    [VError cls message] is an instance of the error class named [cls];
    [VRef l] is a reference to a Result object, so Results nest.
    Arrays are kept as immutable sequences: the module builds arrays and
    never updates one. *)
#[warnings="-register-all"]
Inductive jsval : Type :=
  | VUndefined
  | VNull
  | VBool (b : bool)
  | VNum (n : Z)
  | VStr (s : string)
  | VArray (items : list jsval)
  | VError (cls : string) (message : string)
  | VRef (l : loc).

(** [new Error(message)]: an instance of the built-in class [Error]. *)
Definition new_Error (message : string) : jsval := VError "Error" message.

(** ** Objects and the store *)

(** The two classes of the module; [proto] is what [instanceof] inspects. *)
Inductive class : Type := OkClass | FailClass.

#[global] Instance class_eq_dec : EqDecision class.
Proof. solve_decision. Defined.

(** An instance of [Ok] or [Fail]: its class and its three fields
    [isOk], [isFail] and [value]. *)
Record object : Type := Object {
  proto : class;
  isOk : bool;
  isFail : bool;
  value : jsval;
}.

(** The store: objects in allocation order; a reference is an index. *)
Definition heap := list object.

(** ** Completions and the execution monad *)

(** How a call ends: it returns, or it throws a value.  [Dangling] marks a
    read through a reference that names no object; JavaScript has no such
    reads, and every theorem excludes them by hypothesis. *)
Inductive completion (A : Type) : Type :=
  | Return (a : A)
  | Throw (exn : jsval)
  | Dangling.
Arguments Return {A} a.
Arguments Throw {A} exn.
Arguments Dangling {A}.

Definition M (A : Type) : Type := heap -> completion A * heap.

Definition ret {A} (a : A) : M A := fun h => (Return a, h).

Definition bind {A B} (m : M A) (k : A -> M B) : M B :=
  fun h =>
    match m h with
    | (Return a, h') => k a h'
    | (Throw exn, h') => (Throw exn, h')
    | (Dangling, h') => (Dangling, h')
    end.

Definition throw {A} (exn : jsval) : M A := fun h => (Throw exn, h).

Declare Scope js_scope.
Delimit Scope js_scope with js.
Notation "x <- m ;; k" := (bind m (fun x => k))
  (at level 100, m at next level, right associativity) : js_scope.
Open Scope js_scope.

(** [new C(...)]: the fresh object is appended to the store. *)
Definition alloc (o : object) : M loc :=
  fun h => (Return (length h), h ++ [o]).

(** Reading the object a reference points to. *)
Definition deref (l : loc) : M object :=
  fun h =>
    match h !! l with
    | Some o => (Return o, h)
    | None => (Dangling, h)
    end.

(** Field reads [r.isOk], [r.isFail], [r.value]. *)
Definition get_isOk (r : loc) : M bool := o <- deref r ;; ret (isOk o).
Definition get_isFail (r : loc) : M bool := o <- deref r ;; ret (isFail o).
Definition get_value (r : loc) : M jsval := o <- deref r ;; ret (value o).

(** [r instanceof C]. *)
Definition instanceof (r : loc) (c : class) : M bool :=
  o <- deref r ;; ret (bool_decide (proto o = c)).

(** ** The classes *)

(** [new Ok(value)]: the field initialisers set [isOk = true] and
    [isFail = false]; the constructor stores [value]. *)
Definition Ok_object (v : jsval) : object :=
  {| proto := OkClass; isOk := true; isFail := false; value := v |}.
Definition new_Ok (v : jsval) : M loc := alloc (Ok_object v).

(** [new Fail(value)]: [isOk = false], [isFail = true]. *)
Definition Fail_object (e : jsval) : object :=
  {| proto := FailClass; isOk := false; isFail := true; value := e |}.
Definition new_Fail (e : jsval) : M loc := alloc (Fail_object e).

Module Ok.

Definition map (this : loc) (mapFn : jsval -> M jsval) : M loc :=
  v <- get_value this ;; x <- mapFn v ;; new_Ok x.

Definition flatMap (this : loc) (mapFn : jsval -> M loc) : M loc :=
  v <- get_value this ;; mapFn v.

Definition mapFails (this : loc) (_ : jsval -> M jsval) : M loc :=
  v <- get_value this ;; new_Ok v.

Definition flip (this : loc) : M loc :=
  v <- get_value this ;; new_Fail v.

Definition unwrap (this : loc) : M jsval := get_value this.

Definition unwrapOr (this : loc) (_defaultValue : jsval) : M jsval :=
  get_value this.

Definition unwrapOrElse (this : loc) (_fn : M jsval) : M jsval :=
  get_value this.

Definition expect (this : loc) (_ : string) : M jsval := get_value this.

Definition and (this : loc) (result : loc) : M loc := ret result.

Definition or (this : loc) (_ : loc) : M loc := ret this.

Definition unwrapOrGetErrors (this : loc) : M jsval := get_value this.

End Ok.

Module Fail.

Definition map (this : loc) (_ : jsval -> M jsval) : M loc :=
  e <- get_value this ;; new_Fail e.

Definition flatMap (this : loc) (_ : jsval -> M loc) : M loc :=
  e <- get_value this ;; new_Fail e.

Definition mapFails (this : loc) (mapFn : jsval -> M jsval) : M loc :=
  e <- get_value this ;; x <- mapFn e ;; new_Fail x.

Definition flip (this : loc) : M loc :=
  e <- get_value this ;; new_Ok e.

Definition unwrap (this : loc) : M jsval :=
  throw (new_Error "Tried to unwrap a Fail result").

Definition unwrapOr (this : loc) (defaultValue : jsval) : M jsval :=
  ret defaultValue.

Definition unwrapOrElse (this : loc) (fn : M jsval) : M jsval := fn.

Definition expect (this : loc) (message : string) : M jsval :=
  throw (new_Error message).

Definition and (this : loc) (_ : loc) : M loc :=
  e <- get_value this ;; new_Fail e.

Definition or (this : loc) (result : loc) : M loc := ret result.

Definition unwrapOrGetErrors (this : loc) : M jsval := get_value this.

End Fail.

(** ** The interface [IResult]

    A call [r.m(...)] on a [Result] runs the method of the class of [r]. *)
Module IResult.

Definition dispatch {A} (r : loc) (ok fail : loc -> M A) : M A :=
  o <- deref r ;;
  match proto o with
  | OkClass => ok r
  | FailClass => fail r
  end.

Definition map (r : loc) (mapFn : jsval -> M jsval) : M loc :=
  dispatch r (fun this => Ok.map this mapFn) (fun this => Fail.map this mapFn).

Definition flatMap (r : loc) (mapFn : jsval -> M loc) : M loc :=
  dispatch r (fun this => Ok.flatMap this mapFn)
             (fun this => Fail.flatMap this mapFn).

Definition mapFails (r : loc) (mapFn : jsval -> M jsval) : M loc :=
  dispatch r (fun this => Ok.mapFails this mapFn)
             (fun this => Fail.mapFails this mapFn).

Definition flip (r : loc) : M loc := dispatch r Ok.flip Fail.flip.

Definition unwrap (r : loc) : M jsval := dispatch r Ok.unwrap Fail.unwrap.

Definition unwrapOr (r : loc) (defaultValue : jsval) : M jsval :=
  dispatch r (fun this => Ok.unwrapOr this defaultValue)
             (fun this => Fail.unwrapOr this defaultValue).

Definition unwrapOrElse (r : loc) (fn : M jsval) : M jsval :=
  dispatch r (fun this => Ok.unwrapOrElse this fn)
             (fun this => Fail.unwrapOrElse this fn).

Definition expect (r : loc) (message : string) : M jsval :=
  dispatch r (fun this => Ok.expect this message)
             (fun this => Fail.expect this message).

Definition and (r : loc) (result : loc) : M loc :=
  dispatch r (fun this => Ok.and this result) (fun this => Fail.and this result).

Definition or (r : loc) (result : loc) : M loc :=
  dispatch r (fun this => Ok.or this result) (fun this => Fail.or this result).

Definition unwrapOrGetErrors (r : loc) : M jsval :=
  dispatch r Ok.unwrapOrGetErrors Fail.unwrapOrGetErrors.

End IResult.

(** ** [ResultUtils] *)

(** [Array.prototype.filter] and [Array.prototype.map]: the callback runs
    on every element, from the first to the last. *)
Fixpoint Array_filter {A} (p : A -> M bool) (xs : list A) : M (list A) :=
  match xs with
  | [] => ret []
  | x :: xs' =>
      keep <- p x ;;
      rest <- Array_filter p xs' ;;
      ret (if keep : bool then x :: rest else rest)
  end.

Fixpoint Array_map {A B} (f : A -> M B) (xs : list A) : M (list B) :=
  match xs with
  | [] => ret []
  | x :: xs' =>
      y <- f x ;;
      ys <- Array_map f xs' ;;
      ret (y :: ys)
  end.

Module ResultUtils.

Definition combine (results : list loc) : M loc :=
  fails <- Array_filter (fun r => instanceof r FailClass) results ;;
  if 0 <? length fails then
    failValues <- Array_map (fun f => get_value f) fails ;;
    new_Fail (VArray failValues)
  else
    okValues <- Array_map (fun r => IResult.unwrapOr r VNull) results ;;
    new_Ok (VArray okValues).

End ResultUtils.

(** ** Results of the store *)

Definition is_Ok (h : heap) (r : loc) (v : jsval) : Prop :=
  h !! r = Some (Ok_object v).

Definition is_Fail (h : heap) (r : loc) (e : jsval) : Prop :=
  h !! r = Some (Fail_object e).

(** An object built by one of the two constructors. *)
Definition constructed (o : object) : Prop :=
  o = Ok_object (value o) \/ o = Fail_object (value o).

(** [r] refers to a Result of the store. *)
Definition is_Result (h : heap) (r : loc) : Prop :=
  exists o, h !! r = Some o /\ constructed o.

(** The inputs of a call: [results] are references into [h], and [objs]
    are the Results they refer to, position by position. *)
Definition Results_at (h : heap) (results : list loc) (objs : list object)
    : Prop :=
  Forall2 (fun r o => h !! r = Some o /\ constructed o) results objs.

(** Specification side, not taken from the code: the list the
    specification gives for the failure case,
    [[e_j for each failing r_j in original order]]. *)
Fixpoint spec_failure_errors (objs : list object) : list jsval :=
  match objs with
  | [] => []
  | o :: rest =>
      if isFail o then value o :: spec_failure_errors rest
      else spec_failure_errors rest
  end.

(** The number of failing inputs. *)
Definition failing (objs : list object) : nat :=
  length (filter (fun o => isFail o = true) objs).

(** Inputs given in full: each reference is looked up by computation. *)
Ltac solve_Results_at :=
  repeat match goal with
    | |- Forall2 _ _ _ => constructor
    | |- _ /\ constructed _ =>
        split; [reflexivity | first [by left | by right]]
    end.

(** Stores that hold only what the two constructors built. *)
Inductive built : heap -> Prop :=
  | built_empty : built []
  | built_Ok h v : built h -> built (h ++ [Ok_object v])
  | built_Fail h e : built h -> built (h ++ [Fail_object e]).

(** ** Calls through the interface

    The eleven methods [IResult] declares, each with its arguments. *)
Inductive call : Type :=
  | Call_map (mapFn : jsval -> M jsval)
  | Call_flatMap (mapFn : jsval -> M loc)
  | Call_mapFails (mapFn : jsval -> M jsval)
  | Call_flip
  | Call_unwrap
  | Call_unwrapOr (defaultValue : jsval)
  | Call_unwrapOrElse (fn : M jsval)
  | Call_expect (message : string)
  | Call_and (result : loc)
  | Call_or (result : loc)
  | Call_unwrapOrGetErrors.

(** A method that returns a Result returns a reference to it. *)
Definition as_ref (m : M loc) : M jsval := l <- m ;; ret (VRef l).

(** [r.m(...)] for the method and arguments of [c]. *)
Definition invoke (c : call) (r : loc) : M jsval :=
  match c with
  | Call_map mapFn => as_ref (IResult.map r mapFn)
  | Call_flatMap mapFn => as_ref (IResult.flatMap r mapFn)
  | Call_mapFails mapFn => as_ref (IResult.mapFails r mapFn)
  | Call_flip => as_ref (IResult.flip r)
  | Call_unwrap => IResult.unwrap r
  | Call_unwrapOr defaultValue => IResult.unwrapOr r defaultValue
  | Call_unwrapOrElse fn => IResult.unwrapOrElse r fn
  | Call_expect message => IResult.expect r message
  | Call_and result => as_ref (IResult.and r result)
  | Call_or result => as_ref (IResult.or r result)
  | Call_unwrapOrGetErrors => IResult.unwrapOrGetErrors r
  end.

(** The two methods by which a caller asserts success. *)
Definition asserts_success (c : call) : bool :=
  match c with
  | Call_unwrap | Call_expect _ => true
  | _ => false
  end.

(** The methods that derive a Result from the payload of the receiver. *)
Definition transforms (c : call) : bool :=
  match c with
  | Call_map _ | Call_mapFails _ | Call_flip => true
  | _ => false
  end.

(** A computation that returns, from every store. *)
Definition returns {A} (m : M A) : Prop :=
  forall h, exists a h', m h = (Return a, h').

(** A computation whose final store is related by [R] to its initial one. *)
Definition evolves (R : relation heap) {A} (m : M A) : Prop :=
  forall h, R h (m h).2.

(** A computation that leaves every object of the store as it was: the
    store it ends in is the one it started from, with new objects after. *)
Definition preserves {A} (m : M A) : Prop := evolves prefix m.

(** A computation that keeps the store one of constructor-built objects. *)
Definition keeps_built {A} (m : M A) : Prop :=
  evolves (fun h h' => built h -> built h') m.

(** A property of the functions the caller supplies with a call. *)
Definition callbacks (P : forall A, M A -> Prop) (c : call) : Prop :=
  match c with
  | Call_map mapFn => forall v, P _ (mapFn v)
  | Call_flatMap mapFn => forall v, P _ (mapFn v)
  | Call_mapFails mapFn => forall e, P _ (mapFn e)
  | Call_unwrapOrElse fn => P _ fn
  | _ => True
  end.

(** The function [x => f(x)] for a function [f] on values. *)
Definition pure_fn (f : jsval -> jsval) : jsval -> M jsval :=
  fun x => ret (f x).

(** What a call that yields a Result hands to its caller, up to the
    identity of the object: the class and fields of the Result returned,
    or the value thrown. *)
Definition result_of (run : completion loc * heap) : completion (option object) :=
  match run with
  | (Return r, h) => Return (h !! r)
  | (Throw exn, _) => Throw exn
  | (Dangling, _) => Dangling
  end.

(** The class of an error object. *)
Definition error_class (exn : jsval) : option string :=
  match exn with
  | VError cls _ => Some cls
  | _ => None
  end.

(** A signal of an exception type of its own: an error object that is not
    an instance of the generic class [Error], the class of the errors
    application code throws with [throw new Error(...)]. *)
Definition distinct_exception_type (exn : jsval) : Prop :=
  exists cls, error_class exn = Some cls /\ cls <> "Error".

(** ** Chains of calls *)

(** [r.flatMap(f1).flatMap(f2)...]: each call is made on the Result the
    call before it returned. *)
Fixpoint flatMap_chain (r : loc) (fs : list (jsval -> M loc)) : M loc :=
  match fs with
  | [] => ret r
  | f :: fs' => r' <- IResult.flatMap r f ;; flatMap_chain r' fs'
  end.

(** [r.and(r1).and(r2)...]. *)
Fixpoint and_chain (r : loc) (rs : list loc) : M loc :=
  match rs with
  | [] => ret r
  | x :: rs' => r' <- IResult.and r x ;; and_chain r' rs'
  end.

(** The calls whose method bodies construct nothing, in either class. *)
Definition reads_only (c : call) : bool :=
  match c with
  | Call_unwrap | Call_unwrapOr _ | Call_expect _ | Call_or _
  | Call_unwrapOrGetErrors => true
  | _ => false
  end.

(** ** Checks on concrete inputs *)

Example unwrapOr_Ok_5 :
  IResult.unwrapOr 0 (VNum 9) [Ok_object (VNum 5)]
  = (Return (VNum 5), [Ok_object (VNum 5)]).
Proof. reflexivity. Qed.

Example unwrapOr_Fail_e :
  IResult.unwrapOr 0 (VNum 9) [Fail_object (VStr "e")]
  = (Return (VNum 9), [Fail_object (VStr "e")]).
Proof. reflexivity. Qed.

Example and_Ok_Ok :
  IResult.and 0 1 [Ok_object (VNum 1); Ok_object (VNum 2)]
  = (Return 1, [Ok_object (VNum 1); Ok_object (VNum 2)]).
Proof. reflexivity. Qed.

Example and_Fail_Ok :
  IResult.and 0 1 [Fail_object (VStr "e"); Ok_object (VNum 2)]
  = (Return 2,
     [Fail_object (VStr "e"); Ok_object (VNum 2); Fail_object (VStr "e")]).
Proof. reflexivity. Qed.

Example or_Fail_Ok :
  IResult.or 0 1 [Fail_object (VStr "e"); Ok_object (VNum 2)]
  = (Return 1, [Fail_object (VStr "e"); Ok_object (VNum 2)]).
Proof. reflexivity. Qed.

Example or_Ok_Ok :
  IResult.or 0 1 [Ok_object (VNum 1); Ok_object (VNum 2)]
  = (Return 0, [Ok_object (VNum 1); Ok_object (VNum 2)]).
Proof. reflexivity. Qed.

Example unwrapOrGetErrors_Fail_e :
  IResult.unwrapOrGetErrors 0 [Fail_object (VStr "e")]
  = (Return (VStr "e"), [Fail_object (VStr "e")]).
Proof. reflexivity. Qed.

Example expect_Fail_message :
  IResult.expect 0 "no user" [Fail_object (VStr "e")]
  = (Throw (VError "Error" "no user"), [Fail_object (VStr "e")]).
Proof. reflexivity. Qed.

Example combine_three_Ok :
  ResultUtils.combine [0; 1; 2]
    [Ok_object (VNum 1); Ok_object (VNum 2); Ok_object (VNum 3)]
  = (Return 3,
     [Ok_object (VNum 1); Ok_object (VNum 2); Ok_object (VNum 3);
      Ok_object (VArray [VNum 1; VNum 2; VNum 3])]).
Proof. reflexivity. Qed.

Example combine_Fail_Ok_Fail :
  ResultUtils.combine [0; 1; 2]
    [Fail_object (VStr "a"); Ok_object (VNum 1); Fail_object (VStr "b")]
  = (Return 3,
     [Fail_object (VStr "a"); Ok_object (VNum 1); Fail_object (VStr "b");
      Fail_object (VArray [VStr "a"; VStr "b"])]).
Proof. reflexivity. Qed.

(** An [Ok] whose payload is a [Fail], and an [Ok] holding [null], are
    successes for [combine]: it goes by the class of each input. *)
Example combine_Ok_of_Fail :
  ResultUtils.combine [1; 2]
    [Fail_object (VStr "inner"); Ok_object (VRef 0); Ok_object VNull]
  = (Return 3,
     [Fail_object (VStr "inner"); Ok_object (VRef 0); Ok_object VNull;
      Ok_object (VArray [VRef 0; VNull])]).
Proof. reflexivity. Qed.

(** The same Result passed twice is counted twice. *)
Example combine_same_Fail_twice :
  ResultUtils.combine [0; 0] [Fail_object (VStr "a")]
  = (Return 1,
     [Fail_object (VStr "a"); Fail_object (VArray [VStr "a"; VStr "a"])]).
Proof. reflexivity. Qed.

(** ** Running a method on a known receiver *)


Lemma is_Ok_Result h r v : is_Ok h r v -> is_Result h r.
Proof. intros H. exists (Ok_object v). split; [exact H | by left]. Qed.

Lemma is_Fail_Result h r e : is_Fail h r e -> is_Result h r.
Proof. intros H. exists (Fail_object e). split; [exact H | by right]. Qed.

Lemma is_Result_inv h r :
  is_Result h r -> (exists v, is_Ok h r v) \/ (exists e, is_Fail h r e).
Proof.
  intros (o & Hr & [Ho | Ho]); rewrite Ho in Hr; [left | right]; eauto.
Qed.

Lemma deref_Some h l o : h !! l = Some o -> deref l h = (Return o, h).
Proof. intros H. unfold deref. by rewrite H. Qed.

Lemma get_value_Some h l o :
  h !! l = Some o -> get_value l h = (Return (value o), h).
Proof. intros H. unfold get_value, bind. by rewrite (deref_Some _ _ _ H). Qed.

Lemma dispatch_Ok {A} h r v (ok fail : loc -> M A) :
  is_Ok h r v -> IResult.dispatch r ok fail h = ok r h.
Proof. intros H. unfold IResult.dispatch, bind. by rewrite (deref_Some _ _ _ H). Qed.

Lemma dispatch_Fail {A} h r e (ok fail : loc -> M A) :
  is_Fail h r e -> IResult.dispatch r ok fail h = fail r h.
Proof. intros H. unfold IResult.dispatch, bind. by rewrite (deref_Some _ _ _ H). Qed.

Lemma bind_get_value {A} h l o (k : jsval -> M A) :
  h !! l = Some o -> (x <- get_value l ;; k x) h = k (value o) h.
Proof. intros H. unfold bind at 1. by rewrite (get_value_Some _ _ _ H). Qed.

(** What each method of the interface does on an [Ok] holding [v]. *)
Section OnOk.
Context (h : heap) (r : loc) (v : jsval) (Hr : is_Ok h r v).

Lemma map_Ok mapFn :
  IResult.map r mapFn h = (x <- mapFn v ;; new_Ok x) h.
Proof using Hr.
  unfold IResult.map. rewrite (dispatch_Ok _ _ _ _ _ Hr).
  unfold Ok.map. by rewrite (bind_get_value _ _ _ _ Hr).
Qed.

Lemma flatMap_Ok mapFn : IResult.flatMap r mapFn h = mapFn v h.
Proof using Hr.
  unfold IResult.flatMap. rewrite (dispatch_Ok _ _ _ _ _ Hr).
  unfold Ok.flatMap. by rewrite (bind_get_value _ _ _ _ Hr).
Qed.

Lemma mapFails_Ok mapFn : IResult.mapFails r mapFn h = new_Ok v h.
Proof using Hr.
  unfold IResult.mapFails. rewrite (dispatch_Ok _ _ _ _ _ Hr).
  unfold Ok.mapFails. by rewrite (bind_get_value _ _ _ _ Hr).
Qed.

Lemma flip_Ok : IResult.flip r h = new_Fail v h.
Proof using Hr.
  unfold IResult.flip. rewrite (dispatch_Ok _ _ _ _ _ Hr).
  unfold Ok.flip. by rewrite (bind_get_value _ _ _ _ Hr).
Qed.

Lemma unwrap_Ok : IResult.unwrap r h = (Return v, h).
Proof using Hr.
  unfold IResult.unwrap. rewrite (dispatch_Ok _ _ _ _ _ Hr).
  apply (get_value_Some _ _ _ Hr).
Qed.

Lemma unwrapOr_Ok defaultValue :
  IResult.unwrapOr r defaultValue h = (Return v, h).
Proof using Hr.
  unfold IResult.unwrapOr. rewrite (dispatch_Ok _ _ _ _ _ Hr).
  apply (get_value_Some _ _ _ Hr).
Qed.

Lemma unwrapOrElse_Ok fn : IResult.unwrapOrElse r fn h = (Return v, h).
Proof using Hr.
  unfold IResult.unwrapOrElse. rewrite (dispatch_Ok _ _ _ _ _ Hr).
  apply (get_value_Some _ _ _ Hr).
Qed.

Lemma expect_Ok message : IResult.expect r message h = (Return v, h).
Proof using Hr.
  unfold IResult.expect. rewrite (dispatch_Ok _ _ _ _ _ Hr).
  apply (get_value_Some _ _ _ Hr).
Qed.

Lemma and_Ok result : IResult.and r result h = (Return result, h).
Proof using Hr.
  unfold IResult.and. by rewrite (dispatch_Ok _ _ _ _ _ Hr).
Qed.

Lemma or_Ok result : IResult.or r result h = (Return r, h).
Proof using Hr.
  unfold IResult.or. by rewrite (dispatch_Ok _ _ _ _ _ Hr).
Qed.

Lemma unwrapOrGetErrors_Ok : IResult.unwrapOrGetErrors r h = (Return v, h).
Proof using Hr.
  unfold IResult.unwrapOrGetErrors. rewrite (dispatch_Ok _ _ _ _ _ Hr).
  apply (get_value_Some _ _ _ Hr).
Qed.
End OnOk.

(** What each method of the interface does on a [Fail] holding [e]. *)
Section OnFail.
Context (h : heap) (r : loc) (e : jsval) (Hr : is_Fail h r e).

Lemma map_Fail mapFn : IResult.map r mapFn h = new_Fail e h.
Proof using Hr.
  unfold IResult.map. rewrite (dispatch_Fail _ _ _ _ _ Hr).
  unfold Fail.map. by rewrite (bind_get_value _ _ _ _ Hr).
Qed.

Lemma flatMap_Fail mapFn : IResult.flatMap r mapFn h = new_Fail e h.
Proof using Hr.
  unfold IResult.flatMap. rewrite (dispatch_Fail _ _ _ _ _ Hr).
  unfold Fail.flatMap. by rewrite (bind_get_value _ _ _ _ Hr).
Qed.

Lemma mapFails_Fail mapFn :
  IResult.mapFails r mapFn h = (x <- mapFn e ;; new_Fail x) h.
Proof using Hr.
  unfold IResult.mapFails. rewrite (dispatch_Fail _ _ _ _ _ Hr).
  unfold Fail.mapFails. by rewrite (bind_get_value _ _ _ _ Hr).
Qed.

Lemma flip_Fail : IResult.flip r h = new_Ok e h.
Proof using Hr.
  unfold IResult.flip. rewrite (dispatch_Fail _ _ _ _ _ Hr).
  unfold Fail.flip. by rewrite (bind_get_value _ _ _ _ Hr).
Qed.

Lemma unwrap_Fail :
  IResult.unwrap r h = (Throw (new_Error "Tried to unwrap a Fail result"), h).
Proof using Hr.
  unfold IResult.unwrap. by rewrite (dispatch_Fail _ _ _ _ _ Hr).
Qed.

Lemma unwrapOr_Fail defaultValue :
  IResult.unwrapOr r defaultValue h = (Return defaultValue, h).
Proof using Hr.
  unfold IResult.unwrapOr. by rewrite (dispatch_Fail _ _ _ _ _ Hr).
Qed.

Lemma unwrapOrElse_Fail fn : IResult.unwrapOrElse r fn h = fn h.
Proof using Hr.
  unfold IResult.unwrapOrElse. by rewrite (dispatch_Fail _ _ _ _ _ Hr).
Qed.

Lemma expect_Fail message :
  IResult.expect r message h = (Throw (new_Error message), h).
Proof using Hr.
  unfold IResult.expect. by rewrite (dispatch_Fail _ _ _ _ _ Hr).
Qed.

Lemma and_Fail result : IResult.and r result h = new_Fail e h.
Proof using Hr.
  unfold IResult.and. rewrite (dispatch_Fail _ _ _ _ _ Hr).
  unfold Fail.and. by rewrite (bind_get_value _ _ _ _ Hr).
Qed.

Lemma or_Fail result : IResult.or r result h = (Return result, h).
Proof using Hr.
  unfold IResult.or. by rewrite (dispatch_Fail _ _ _ _ _ Hr).
Qed.

Lemma unwrapOrGetErrors_Fail :
  IResult.unwrapOrGetErrors r h = (Return e, h).
Proof using Hr.
  unfold IResult.unwrapOrGetErrors. rewrite (dispatch_Fail _ _ _ _ _ Hr).
  apply (get_value_Some _ _ _ Hr).
Qed.
End OnFail.

(** ** Running [combine] *)

Lemma constructed_proto_isFail o :
  constructed o -> bool_decide (proto o = FailClass) = isFail o.
Proof. by intros [-> | ->]. Qed.

Lemma constructed_isOk_isFail o : constructed o -> isOk o = negb (isFail o).
Proof. by intros [-> | ->]. Qed.

Lemma instanceof_Some h r o c :
  h !! r = Some o -> instanceof r c h = (Return (bool_decide (proto o = c)), h).
Proof. intros H. unfold instanceof, bind. by rewrite (deref_Some _ _ _ H). Qed.

Lemma Array_filter_instanceof h results objs :
  Results_at h results objs ->
  exists fails,
    Array_filter (fun r => instanceof r FailClass) results h = (Return fails, h)
    /\ Results_at h fails (filter (fun o => isFail o = true) objs).
Proof.
  induction 1 as [| r o results objs [Hr Ho] _ (fails & Hrun & Hfails)]; simpl.
  - exists []. split; [done | constructor].
  - unfold bind at 1. rewrite (instanceof_Some _ _ _ _ Hr).
    unfold bind at 1. rewrite Hrun. unfold ret.
    rewrite (constructed_proto_isFail _ Ho), filter_cons.
    destruct (isFail o) eqn:Hf.
    + exists (r :: fails). rewrite decide_True by done.
      split; [done | by constructor].
    + exists fails. by rewrite decide_False by done.
Qed.

Lemma Array_map_get_value h rs objs :
  Results_at h rs objs ->
  Array_map (fun f => get_value f) rs h = (Return (value <$> objs), h).
Proof.
  induction 1 as [| r o rs objs [Hr _] _ IH]; simpl; [done |].
  unfold bind at 1. rewrite (get_value_Some _ _ _ Hr).
  unfold bind at 1. by rewrite IH.
Qed.

Lemma Array_map_unwrapOr h rs objs d :
  Results_at h rs objs ->
  Array_map (fun r => IResult.unwrapOr r d) rs h
  = (Return ((fun o => if isOk o then value o else d) <$> objs), h).
Proof.
  induction 1 as [| r o rs objs [Hr Ho] _ IH]; simpl; [done |].
  unfold bind at 1.
  destruct Ho as [Ho | Ho]; rewrite Ho in Hr |- *.
  - rewrite (unwrapOr_Ok _ _ _ Hr). unfold bind at 1. by rewrite IH.
  - rewrite (unwrapOr_Fail _ _ _ Hr). unfold bind at 1. by rewrite IH.
Qed.

Lemma spec_failure_errors_filter objs :
  spec_failure_errors objs = value <$> filter (fun o => isFail o = true) objs.
Proof.
  induction objs as [| o objs IH]; simpl; [done |].
  rewrite filter_cons. destruct (isFail o).
  - rewrite decide_True by done. simpl. by rewrite IH.
  - by rewrite decide_False by done.
Qed.

Lemma length_spec_failure_errors objs :
  length (spec_failure_errors objs) = failing objs.
Proof. unfold failing. by rewrite spec_failure_errors_filter, length_fmap. Qed.

(** [combine] on valid inputs: one new object, a [Fail] of the collected
    errors when an input failed and an [Ok] of all the values otherwise. *)
Lemma combine_run h results objs :
  Results_at h results objs ->
  ResultUtils.combine results h
  = (Return (length h),
     h ++ [if 0 <? failing objs
           then Fail_object (VArray (spec_failure_errors objs))
           else Ok_object (VArray (value <$> objs))]).
Proof.
  intros Hres. unfold ResultUtils.combine.
  destruct (Array_filter_instanceof _ _ _ Hres) as (fails & Hrun & Hfails).
  unfold bind at 1. rewrite Hrun.
  assert (length fails = failing objs) as ->.
  { unfold failing. by eapply Forall2_length. }
  destruct (0 <? failing objs) eqn:Hn.
  - unfold bind at 1. rewrite (Array_map_get_value _ _ _ Hfails).
    by rewrite spec_failure_errors_filter.
  - unfold bind at 1. rewrite (Array_map_unwrapOr _ _ _ _ Hres).
    apply Nat.ltb_ge in Hn. unfold failing in Hn.
    assert (filter (fun o => isFail o = true) objs = []) as Hnil.
    { destruct (filter _ objs); [done | simpl in Hn; lia]. }
    assert ((fun o => if isOk o then value o else VNull) <$> objs
            = value <$> objs) as ->; [| done].
    clear -Hres Hnil. induction Hres as [| r o rs objs [_ Ho] _ IH]; [done |].
    rewrite filter_cons in Hnil. rewrite !fmap_cons.
    destruct (decide (isFail o = true)) as [|Hf]; [done |].
    rewrite (constructed_isOk_isFail _ Ho), (IH Hnil).
    by destruct (isFail o).
Qed.

(** ** [unwrap] on a [Fail] *)

(** C1, as stated, does not hold: the signal [unwrap] raises on a [Fail]
    has no exception type of its own.  On a store that holds the single
    Result [new Fail("e")], no run of [unwrap] throws a signal whose class
    differs from the generic [Error]. *)
Lemma unwrap_signal_has_no_type_of_its_own :
  ~ (exists exn h',
        IResult.unwrap 0 [Fail_object (VStr "e")] = (Throw exn, h')
        /\ distinct_exception_type exn).
Proof.
  intros (exn & h' & Hrun & cls & Hcls & Hne).
  rewrite (unwrap_Fail [Fail_object (VStr "e")] 0 (VStr "e") eq_refl) in Hrun.
  injection Hrun as <- _. simpl in Hcls. congruence.
Qed.

(** C1, amended: [unwrap] on a [Fail] never returns.  It throws, with the
    store left as it was, an instance of the generic class [Error] whose
    message is the fixed text "Tried to unwrap a Fail result".  Being
    thrown, the signal is no returned Result; its class is [Error], and
    [expect] called with that text throws the very same signal. *)
Theorem unwrap_Fail_throws_generic_Error (h : heap) (r : loc) (e : jsval)
    (Hr : is_Fail h r e) :
  IResult.unwrap r h = (Throw (new_Error "Tried to unwrap a Fail result"), h)
  /\ (forall x h', IResult.unwrap r h <> (Return x, h'))
  /\ error_class (new_Error "Tried to unwrap a Fail result") = Some "Error"
  /\ IResult.expect r "Tried to unwrap a Fail result" h = IResult.unwrap r h.
Proof.
  rewrite (unwrap_Fail _ _ _ Hr), (expect_Fail _ _ _ Hr).
  repeat split; intros; congruence.
Qed.

Lemma unwrap_Fail_throws_generic_Error_witness :
  is_Fail [Fail_object (VStr "e")] 0 (VStr "e")
  /\ IResult.unwrap 0 [Fail_object (VStr "e")]
     = (Throw (VError "Error" "Tried to unwrap a Fail result"),
        [Fail_object (VStr "e")]).
Proof.
  split; [reflexivity |].
  apply (unwrap_Fail_throws_generic_Error
           [Fail_object (VStr "e")] 0 (VStr "e") eq_refl).
Defined.

(** ** [combine] *)

Lemma spec_failure_errors_indices objs :
  Forall constructed objs ->
  exists idxs : list nat,
    StronglySorted lt idxs
    /\ (forall i, i ∈ idxs <-> exists e, objs !! i = Some (Fail_object e))
    /\ Forall2 (fun i e => objs !! i = Some (Fail_object e))
         idxs (spec_failure_errors objs).
Proof.
  induction 1 as [| o objs Ho _ (idxs & Hsorted & Hin & Hat)].
  - exists []. split; [constructor |]. split; [| constructor].
    intros i. split; [by intros ?%elem_of_nil | by intros [e ?]].
  - assert (StronglySorted lt (S <$> idxs)) as Hshift.
    { eapply StronglySorted_fmap; [| exact Hsorted]. intros; simpl; lia. }
    assert (Forall2 (fun i e => (o :: objs) !! i = Some (Fail_object e))
              (S <$> idxs) (spec_failure_errors objs)) as Hat'.
    { by apply Forall2_fmap_l. }
    destruct Ho as [Ho | Ho]; revert Hat'; rewrite Ho; intros Hat'; simpl.
    + exists (S <$> idxs). split; [done |]. split; [| done].
      intros i. rewrite list_elem_of_fmap. split.
      * intros (j & -> & Hj). by apply Hin.
      * intros [e He]. destruct i as [| j]; [done |].
        exists j. split; [done |]. apply Hin. by exists e.
    + exists (0 :: (S <$> idxs)). split; [| split].
      * constructor; [done |]. apply Forall_fmap, Forall_forall. intros; simpl; lia.
      * intros i. rewrite elem_of_cons, list_elem_of_fmap. split.
        -- intros [-> | (j & -> & Hj)]; [by eexists | by apply Hin].
        -- intros [e He]. destruct i as [| j]; [by left | right].
           exists j. split; [done |]. apply Hin. by exists e.
      * by constructor.
Qed.

Lemma Results_at_constructed h results objs :
  Results_at h results objs -> Forall constructed objs.
Proof. induction 1 as [| ? ? ? ? [_ ?]]; by constructor. Qed.

Lemma failing_Ok vs : failing (Ok_object <$> vs) = 0.
Proof.
  unfold failing. induction vs as [| v vs IH]; [done |].
  by rewrite fmap_cons, filter_cons.
Qed.

Lemma failing_Exists objs :
  Exists (fun o => isFail o = true) objs -> 0 < failing objs.
Proof.
  unfold failing. induction 1 as [o objs Ho | o objs _ IH]; rewrite filter_cons.
  - rewrite decide_True by done. simpl. lia.
  - destruct (decide _); simpl; lia.
Qed.

(** C2: [combine] on [r1..rn].  When every input is a success, the result
    is a new [Ok] holding the array of their values, the value of the i-th
    input at index i.  When at least one input failed, the result is a new
    [Fail] holding the array [[e_j for each failing r_j in original order]]:
    its entries are the errors found at the failing positions, taken in
    increasing position, one entry for every failing position and none for
    a succeeding one, whatever stands before or after the first failure. *)
Theorem combine_collects (h : heap) (results : list loc) (objs : list object)
    (Hres : Results_at h results objs) :
  (forall vs, objs = Ok_object <$> vs ->
     ResultUtils.combine results h
     = (Return (length h), h ++ [Ok_object (VArray vs)]))
  /\ (Exists (fun o => isFail o = true) objs ->
      ResultUtils.combine results h
      = (Return (length h),
         h ++ [Fail_object (VArray (spec_failure_errors objs))])
      /\ exists idxs : list nat,
           StronglySorted lt idxs
           /\ (forall i, i ∈ idxs <-> exists e, objs !! i = Some (Fail_object e))
           /\ Forall2 (fun i e => objs !! i = Some (Fail_object e))
                idxs (spec_failure_errors objs)).
Proof.
  rewrite (combine_run _ _ _ Hres). split.
  - intros vs ->. rewrite failing_Ok. simpl.
    do 4 f_equal. rewrite <- list_fmap_compose. by rewrite list_fmap_id.
  - intros Hex. apply failing_Exists in Hex.
    apply Nat.ltb_lt in Hex. rewrite Hex. split; [done |].
    eapply spec_failure_errors_indices, Results_at_constructed, Hres.
Qed.

Lemma combine_collects_witness :
  ResultUtils.combine [0; 1; 2]
    [Fail_object (VStr "a"); Ok_object (VNum 1); Fail_object (VStr "b")]
  = (Return 3,
     [Fail_object (VStr "a"); Ok_object (VNum 1); Fail_object (VStr "b");
      Fail_object (VArray [VStr "a"; VStr "b"])])
  /\ ResultUtils.combine [1; 0] [Ok_object (VNum 1); Ok_object VNull]
     = (Return 2,
        [Ok_object (VNum 1); Ok_object VNull;
         Ok_object (VArray [VNull; VNum 1])]).
Proof.
  split.
  - assert (Results_at
              [Fail_object (VStr "a"); Ok_object (VNum 1); Fail_object (VStr "b")]
              [0; 1; 2]
              [Fail_object (VStr "a"); Ok_object (VNum 1); Fail_object (VStr "b")])
      as Hres.
    { unfold Results_at. solve_Results_at. }
    apply (combine_collects _ _ _ Hres). by left.
  - assert (Results_at [Ok_object (VNum 1); Ok_object VNull] [1; 0]
              [Ok_object VNull; Ok_object (VNum 1)]) as Hres.
    { unfold Results_at. solve_Results_at. }
    apply (combine_collects _ _ _ Hres) with (vs := [VNull; VNum 1]).
    reflexivity.
Defined.

Lemma lookup_alloc (h : heap) (o : object) : (h ++ [o]) !! length h = Some o.
Proof. by rewrite lookup_app_r, Nat.sub_diag by lia. Qed.

(** C6: [combine()] with no input returns a new [Ok] that holds the empty
    array; it neither fails nor throws. *)
Theorem combine_no_inputs (h : heap) :
  ResultUtils.combine [] h = (Return (length h), h ++ [Ok_object (VArray [])])
  /\ result_of (ResultUtils.combine [] h) = Return (Some (Ok_object (VArray []))).
Proof.
  split; [reflexivity |].
  change (ResultUtils.combine [] h)
    with (Return (length h), h ++ [Ok_object (VArray [])]).
  unfold result_of. by rewrite lookup_alloc.
Qed.

(** C9: when [combine] returns a [Fail], the payload is an array; it has
    one entry per failing input, so it is never empty, and when exactly one
    input failed it is the one-element array of that error. *)
Theorem combine_Fail_payload (h : heap) (results : list loc) (objs : list object)
    (r' : loc) (h' : heap) (p : jsval)
    (Hres : Results_at h results objs)
    (Hrun : ResultUtils.combine results h = (Return r', h'))
    (Hfail : is_Fail h' r' p) :
  exists errs,
    p = VArray errs
    /\ length errs = failing objs
    /\ 0 < length errs
    /\ (failing objs = 1 ->
        forall i e, objs !! i = Some (Fail_object e) -> errs = [e]).
Proof.
  rewrite (combine_run _ _ _ Hres) in Hrun. injection Hrun as <- <-.
  unfold is_Fail in Hfail. rewrite lookup_alloc in Hfail.
  destruct (0 <? failing objs) eqn:Hn; [| done].
  injection Hfail as <-. apply Nat.ltb_lt in Hn.
  exists (spec_failure_errors objs). rewrite length_spec_failure_errors.
  split; [done |]. split; [done |]. split; [done |].
  intros Hone i e Hi.
  destruct (spec_failure_errors_indices objs (Results_at_constructed _ _ _ Hres))
    as (idxs & _ & Hin & Hat).
  assert (i ∈ idxs) as Hi' by (apply Hin; eauto).
  pose proof (Forall2_length _ _ _ Hat) as Hlen.
  rewrite length_spec_failure_errors, Hone in Hlen.
  destruct idxs as [| j [| ? ?]]; [done | | done].
  apply list_elem_of_singleton in Hi' as ->.
  inversion Hat as [| ? e' ? ? He' Hnil]; subst. inversion Hnil; subst.
  rewrite Hi in He'. unfold Fail_object in He'. by injection He' as <-.
Qed.

Lemma combine_Fail_payload_witness :
  exists errs,
    VArray [VStr "b"] = VArray errs
    /\ length errs = failing [Ok_object (VNum 1); Fail_object (VStr "b")]
    /\ 0 < length errs
    /\ (failing [Ok_object (VNum 1); Fail_object (VStr "b")] = 1 ->
        forall i e,
          [Ok_object (VNum 1); Fail_object (VStr "b")] !! i
          = Some (Fail_object e) ->
          errs = [e]).
Proof.
  apply (combine_Fail_payload
           [Ok_object (VNum 1); Fail_object (VStr "b")] [0; 1]
           [Ok_object (VNum 1); Fail_object (VStr "b")] 2
           [Ok_object (VNum 1); Fail_object (VStr "b");
            Fail_object (VArray [VStr "b"])]
           (VArray [VStr "b"])).
  - unfold Results_at. solve_Results_at.
  - reflexivity.
  - reflexivity.
Defined.

(** ** [flip], [map] and [mapFails] *)

Lemma result_of_alloc (h : heap) (o : object) :
  result_of (alloc o h) = Return (Some o).
Proof. unfold alloc, result_of. by rewrite lookup_alloc. Qed.

(** C4: [flip] changes the variant and keeps the payload: on an [Ok]
    holding [v] it builds [Fail] holding [v], on a [Fail] holding [e] it
    builds [Ok] holding [e].  Flipping twice yields a Result with the class
    and fields of the one started from. *)
Theorem flip_swaps_and_is_involutive (h : heap) (r : loc) (o : object)
    (Hr : h !! r = Some o) (Ho : constructed o) :
  (forall v, o = Ok_object v ->
     IResult.flip r h = (Return (length h), h ++ [Fail_object v]))
  /\ (forall e, o = Fail_object e ->
     IResult.flip r h = (Return (length h), h ++ [Ok_object e]))
  /\ result_of ((r1 <- IResult.flip r ;; IResult.flip r1) h) = Return (Some o).
Proof.
  split; [| split].
  - intros v ->. by rewrite (flip_Ok _ _ _ Hr).
  - intros e ->. by rewrite (flip_Fail _ _ _ Hr).
  - destruct Ho as [Ho | Ho]; rewrite Ho in Hr |- *; unfold bind at 1.
    + rewrite (flip_Ok _ _ _ Hr). unfold new_Fail, alloc.
      rewrite (flip_Fail _ _ (value o) (lookup_alloc _ _)).
      apply result_of_alloc.
    + rewrite (flip_Fail _ _ _ Hr). unfold new_Ok, alloc.
      rewrite (flip_Ok _ _ (value o) (lookup_alloc _ _)).
      apply result_of_alloc.
Qed.

Lemma flip_swaps_and_is_involutive_witness :
  IResult.flip 0 [Ok_object (VNum 7)]
  = (Return 1, [Ok_object (VNum 7); Fail_object (VNum 7)])
  /\ result_of ((r1 <- IResult.flip 0 ;; IResult.flip r1) [Ok_object (VNum 7)])
     = Return (Some (Ok_object (VNum 7))).
Proof.
  pose proof (flip_swaps_and_is_involutive
                [Ok_object (VNum 7)] 0 (Ok_object (VNum 7))
                eq_refl (or_introl eq_refl)) as (Hok & _ & Hinv).
  split; [exact (Hok (VNum 7) eq_refl) | exact Hinv].
Defined.

(** C5: the functor laws.  Mapping the identity over an [Ok] holding [v]
    yields an [Ok] holding [v]; mapping the identity over the error of a
    [Fail] holding [e] yields a [Fail] holding [e]; and on an [Ok],
    mapping [f] and then [g] yields the same Result as mapping
    [x => g(f(x))], an [Ok] holding [g (f v)]. *)
Theorem map_functor_laws (h : heap) (r r' : loc) (v e : jsval)
    (Hok : is_Ok h r v) (Hfail : is_Fail h r' e) (f g : jsval -> jsval) :
  result_of (IResult.map r (pure_fn (fun x => x)) h) = Return (Some (Ok_object v))
  /\ result_of (IResult.mapFails r' (pure_fn (fun x => x)) h)
     = Return (Some (Fail_object e))
  /\ result_of ((r1 <- IResult.map r (pure_fn f) ;; IResult.map r1 (pure_fn g)) h)
     = result_of (IResult.map r (pure_fn (fun x => g (f x))) h)
  /\ result_of (IResult.map r (pure_fn (fun x => g (f x))) h)
     = Return (Some (Ok_object (g (f v)))).
Proof.
  assert (forall k, result_of (IResult.map r (pure_fn k) h)
                    = Return (Some (Ok_object (k v)))) as Hmap.
  { intros k. rewrite (map_Ok _ _ _ Hok). apply result_of_alloc. }
  split; [apply Hmap |]. split.
  { rewrite (mapFails_Fail _ _ _ Hfail). apply result_of_alloc. }
  split; [| apply Hmap].
  rewrite Hmap. unfold bind at 1. rewrite (map_Ok _ _ _ Hok).
  unfold pure_fn at 1, bind at 1, ret, new_Ok, alloc.
  rewrite (map_Ok _ _ (f v) (lookup_alloc _ _)). apply result_of_alloc.
Qed.

Lemma map_functor_laws_witness :
  result_of
    ((r1 <- IResult.map 0 (pure_fn (fun x => VArray [x])) ;;
      IResult.map r1 (pure_fn (fun x => VArray [x; x])))
       [Ok_object (VNum 1); Fail_object (VStr "e")])
  = Return (Some (Ok_object (VArray [VArray [VNum 1]; VArray [VNum 1]]))).
Proof.
  pose proof (map_functor_laws
                [Ok_object (VNum 1); Fail_object (VStr "e")] 0 1
                (VNum 1) (VStr "e") eq_refl eq_refl
                (fun x => VArray [x]) (fun x => VArray [x; x]))
    as (_ & _ & Hcomp & Hval).
  exact (eq_trans Hcomp Hval).
Defined.

(** ** [unwrapOrElse] *)

(** C7: on an [Ok], [unwrapOrElse(fn)] returns the held value and leaves
    the store as it was, whatever [fn] is, be it a function that throws
    or one that rewrites the store: [fn] is not run.  On a [Fail] the call
    is the run of [fn], its result and its effects. *)
Theorem unwrapOrElse_runs_fn_only_on_Fail (h : heap) (r r' : loc) (v e : jsval)
    (Hok : is_Ok h r v) (Hfail : is_Fail h r' e) :
  (forall fn, IResult.unwrapOrElse r fn h = (Return v, h))
  /\ (forall fn, IResult.unwrapOrElse r' fn h = fn h).
Proof.
  split; intros fn.
  - apply (unwrapOrElse_Ok _ _ _ Hok).
  - apply (unwrapOrElse_Fail _ _ _ Hfail).
Qed.

Lemma unwrapOrElse_runs_fn_only_on_Fail_witness :
  IResult.unwrapOrElse 0 (throw (VStr "invoked"))
    [Ok_object (VNum 5); Fail_object (VStr "e")]
  = (Return (VNum 5), [Ok_object (VNum 5); Fail_object (VStr "e")])
  /\ IResult.unwrapOrElse 1 (ret (VNum 9))
       [Ok_object (VNum 5); Fail_object (VStr "e")]
     = (Return (VNum 9), [Ok_object (VNum 5); Fail_object (VStr "e")]).
Proof.
  pose proof (unwrapOrElse_runs_fn_only_on_Fail
                [Ok_object (VNum 5); Fail_object (VStr "e")] 0 1
                (VNum 5) (VStr "e") eq_refl eq_refl) as [Hok Hfail].
  split; [apply Hok | apply Hfail].
Defined.

(** ** How the store evolves

    Every step of the module either reads the store or appends a newly
    constructed [Ok] or [Fail] to it.  Any relation between stores that is
    reflexive, transitive and holds across those two appends therefore
    holds across every method and across [combine], as long as it holds
    across the functions the caller passes in. *)
Section Evolution.
Context (R : relation heap).
Hypothesis R_refl : forall h, R h h.
Hypothesis R_trans : forall h1 h2 h3, R h1 h2 -> R h2 h3 -> R h1 h3.
Hypothesis R_Ok : forall h v, R h (h ++ [Ok_object v]).
Hypothesis R_Fail : forall h e, R h (h ++ [Fail_object e]).

Lemma evolves_ret {A} (a : A) : evolves R (ret a).
Proof using R_refl. intros h. apply R_refl. Qed.

Lemma evolves_throw {A} exn : evolves R (@throw A exn).
Proof using R_refl. intros h. apply R_refl. Qed.

Lemma evolves_bind {A B} (m : M A) (k : A -> M B) :
  evolves R m -> (forall a, evolves R (k a)) -> evolves R (bind m k).
Proof using R_trans.
  intros Hm Hk h. unfold bind. specialize (Hm h).
  destruct (m h) as [[a | exn |] h1]; simpl in *; [| done | done].
  eapply R_trans; [exact Hm | apply Hk].
Qed.

Lemma evolves_deref l : evolves R (deref l).
Proof using R_refl. intros h. unfold deref. destruct (h !! l); apply R_refl. Qed.

Lemma evolves_get_value l : evolves R (get_value l).
Proof using R_refl R_trans.
  apply evolves_bind; [apply evolves_deref | intros; apply evolves_ret].
Qed.

Lemma evolves_instanceof l c : evolves R (instanceof l c).
Proof using R_refl R_trans.
  apply evolves_bind; [apply evolves_deref | intros; apply evolves_ret].
Qed.

Lemma evolves_new_Ok v : evolves R (new_Ok v).
Proof using R_Ok. intros h. apply R_Ok. Qed.

Lemma evolves_new_Fail e : evolves R (new_Fail e).
Proof using R_Fail. intros h. apply R_Fail. Qed.

Lemma evolves_dispatch {A} r (ok fail : loc -> M A) :
  evolves R (ok r) -> evolves R (fail r) -> evolves R (IResult.dispatch r ok fail).
Proof using R_refl R_trans.
  intros Hok Hfail. apply evolves_bind; [apply evolves_deref |].
  intros o. by destruct (proto o).
Qed.

Lemma evolves_as_ref m : evolves R m -> evolves R (as_ref m).
Proof using R_refl R_trans.
  intros Hm. apply evolves_bind; [done | intros; apply evolves_ret].
Qed.

Create HintDb evolves.

Local Hint Resolve evolves_ret evolves_throw evolves_deref evolves_get_value
  evolves_instanceof evolves_new_Ok evolves_new_Fail : evolves.

Ltac evolves_step :=
  first [ apply evolves_as_ref
        | apply evolves_dispatch
        | apply evolves_bind; [| intros ?] ].

Lemma invoke_evolves c r :
  callbacks (fun A => @evolves R A) c -> evolves R (invoke c r).
Proof using R_refl R_trans R_Ok R_Fail.
  destruct c; simpl; intros Hcb;
    unfold IResult.map, IResult.flatMap, IResult.mapFails, IResult.flip,
      IResult.unwrap, IResult.unwrapOr, IResult.unwrapOrElse, IResult.expect,
      IResult.and, IResult.or, IResult.unwrapOrGetErrors,
      Ok.map, Ok.flatMap, Ok.mapFails, Ok.flip, Ok.unwrap, Ok.unwrapOr,
      Ok.unwrapOrElse, Ok.expect, Ok.and, Ok.or, Ok.unwrapOrGetErrors,
      Fail.map, Fail.flatMap, Fail.mapFails, Fail.flip, Fail.unwrap,
      Fail.unwrapOr, Fail.unwrapOrElse, Fail.expect, Fail.and, Fail.or,
      Fail.unwrapOrGetErrors;
    repeat evolves_step; auto with evolves.
Qed.

Lemma Array_filter_evolves {A} (p : A -> M bool) xs :
  (forall x, evolves R (p x)) -> evolves R (Array_filter p xs).
Proof using R_refl R_trans.
  intros Hp. induction xs as [| x xs IH]; simpl; [apply evolves_ret |].
  repeat evolves_step; auto with evolves.
Qed.

Lemma Array_map_evolves {A B} (f : A -> M B) xs :
  (forall x, evolves R (f x)) -> evolves R (Array_map f xs).
Proof using R_refl R_trans.
  intros Hf. induction xs as [| x xs IH]; simpl; [apply evolves_ret |].
  repeat evolves_step; auto with evolves.
Qed.

Lemma combine_evolves results : evolves R (ResultUtils.combine results).
Proof using R_refl R_trans R_Ok R_Fail.
  unfold ResultUtils.combine. apply evolves_bind.
  { apply Array_filter_evolves. auto with evolves. }
  intros fails. destruct (0 <? length fails).
  - apply evolves_bind; [| auto with evolves].
    apply Array_map_evolves. auto with evolves.
  - apply evolves_bind; [| auto with evolves].
    apply Array_map_evolves. intros r.
    apply (invoke_evolves (Call_unwrapOr VNull) r I).
Qed.

End Evolution.

Lemma invoke_preserves c r :
  callbacks (@preserves) c -> preserves (invoke c r).
Proof.
  apply invoke_evolves.
  - done.
  - intros h1 h2 h3 H12 H23. by etrans.
  - intros h v. by apply prefix_app_r.
  - intros h e. by apply prefix_app_r.
Qed.

Lemma combine_preserves results : preserves (ResultUtils.combine results).
Proof.
  apply combine_evolves.
  - done.
  - intros h1 h2 h3 H12 H23. by etrans.
  - intros h v. by apply prefix_app_r.
  - intros h e. by apply prefix_app_r.
Qed.

Lemma invoke_keeps_built c r :
  callbacks (@keeps_built) c -> keeps_built (invoke c r).
Proof.
  apply invoke_evolves; [tauto | tauto | |].
  - intros h v Hb. by constructor.
  - intros h e Hb. by constructor.
Qed.

Lemma combine_keeps_built results : keeps_built (ResultUtils.combine results).
Proof.
  apply combine_evolves; [tauto | tauto | |].
  - intros h v Hb. by constructor.
  - intros h e Hb. by constructor.
Qed.

Lemma built_constructed h : built h -> Forall constructed h.
Proof.
  induction 1 as [| h v _ IH | h e _ IH]; [constructor | |];
    apply Forall_app; (split; [done |]); apply Forall_singleton.
  - by left.
  - by right.
Qed.

(** ** Which calls return *)

Lemma as_ref_Return m h r h' :
  m h = (Return r, h') -> as_ref m h = (Return (VRef r), h').
Proof. intros H. unfold as_ref, bind. by rewrite H. Qed.

Lemma alloc_Return o h : exists r h', alloc o h = (Return r, h').
Proof. by eexists _, _. Qed.

Lemma bind_returns {A B} (m : M A) (k : A -> M B) :
  returns m -> (forall a, returns (k a)) -> returns (bind m k).
Proof.
  intros Hm Hk h. unfold bind. destruct (Hm h) as (a & h1 & ->). apply Hk.
Qed.

Lemma as_ref_returns m h :
  (exists r h', m h = (Return r, h')) -> exists a h', as_ref m h = (Return a, h').
Proof. intros (r & h' & H). eexists _, _. by apply as_ref_Return. Qed.

Lemma invoke_returns h r c :
  is_Result h r -> asserts_success c = false -> callbacks (@returns) c ->
  exists a h', invoke c r h = (Return a, h').
Proof.
  intros Hr Hc Hcb.
  destruct (is_Result_inv _ _ Hr) as [[v Hv] | [e He]];
    destruct c; try discriminate Hc; simpl in *.
  - apply as_ref_returns. rewrite (map_Ok _ _ _ Hv).
    apply (bind_returns _ _ (Hcb v)). intros x h1. apply alloc_Return.
  - apply as_ref_returns. rewrite (flatMap_Ok _ _ _ Hv). apply Hcb.
  - apply as_ref_returns. rewrite (mapFails_Ok _ _ _ Hv). apply alloc_Return.
  - apply as_ref_returns. rewrite (flip_Ok _ _ _ Hv). apply alloc_Return.
  - rewrite (unwrapOr_Ok _ _ _ Hv). by eexists _, _.
  - rewrite (unwrapOrElse_Ok _ _ _ Hv). by eexists _, _.
  - apply as_ref_returns. rewrite (and_Ok _ _ _ Hv). by eexists _, _.
  - apply as_ref_returns. rewrite (or_Ok _ _ _ Hv). by eexists _, _.
  - rewrite (unwrapOrGetErrors_Ok _ _ _ Hv). by eexists _, _.
  - apply as_ref_returns. rewrite (map_Fail _ _ _ He). apply alloc_Return.
  - apply as_ref_returns. rewrite (flatMap_Fail _ _ _ He). apply alloc_Return.
  - apply as_ref_returns. rewrite (mapFails_Fail _ _ _ He).
    apply (bind_returns _ _ (Hcb e)). intros x h1. apply alloc_Return.
  - apply as_ref_returns. rewrite (flip_Fail _ _ _ He). apply alloc_Return.
  - rewrite (unwrapOr_Fail _ _ _ He). by eexists _, _.
  - rewrite (unwrapOrElse_Fail _ _ _ He). apply Hcb.
  - apply as_ref_returns. rewrite (and_Fail _ _ _ He). apply alloc_Return.
  - apply as_ref_returns. rewrite (or_Fail _ _ _ He). by eexists _, _.
  - rewrite (unwrapOrGetErrors_Fail _ _ _ He). by eexists _, _.
Qed.

(** C3: [unwrap] and [expect] are the only operations that throw.  On a
    [Fail] both throw; on an [Ok] both return the value.  Every other
    method returns on every Result, provided the functions passed to it
    return, and [combine] returns on every sequence of Results. *)
Theorem only_unwrap_and_expect_throw (h : heap) (r : loc)
    (results : list loc) (objs : list object)
    (Hr : is_Result h r) (Hres : Results_at h results objs) :
  (forall c, asserts_success c = false -> callbacks (@returns) c ->
     exists a h', invoke c r h = (Return a, h'))
  /\ (exists r' h', ResultUtils.combine results h = (Return r', h'))
  /\ (forall e, is_Fail h r e ->
      invoke Call_unwrap r h
      = (Throw (new_Error "Tried to unwrap a Fail result"), h)
      /\ forall message,
          invoke (Call_expect message) r h = (Throw (new_Error message), h))
  /\ (forall v, is_Ok h r v ->
      invoke Call_unwrap r h = (Return v, h)
      /\ forall message, invoke (Call_expect message) r h = (Return v, h)).
Proof.
  split; [| split; [| split]].
  - intros c Hc Hcb. by apply invoke_returns.
  - rewrite (combine_run _ _ _ Hres). by eexists _, _.
  - intros e He. simpl. split.
    + apply (unwrap_Fail _ _ _ He).
    + intros message. apply (expect_Fail _ _ _ He).
  - intros v Hv. simpl. split.
    + apply (unwrap_Ok _ _ _ Hv).
    + intros message. apply (expect_Ok _ _ _ Hv).
Qed.

Lemma only_unwrap_and_expect_throw_witness :
  (exists a h',
      invoke (Call_map (pure_fn (fun x => VArray [x]))) 0
        [Fail_object (VStr "e"); Ok_object VNull]
      = (Return a, h'))
  /\ (exists r' h',
        ResultUtils.combine [0; 1] [Fail_object (VStr "e"); Ok_object VNull]
        = (Return r', h'))
  /\ invoke Call_unwrap 0 [Fail_object (VStr "e"); Ok_object VNull]
     = (Throw (new_Error "Tried to unwrap a Fail result"),
        [Fail_object (VStr "e"); Ok_object VNull]).
Proof.
  assert (Results_at [Fail_object (VStr "e"); Ok_object VNull] [0; 1]
            [Fail_object (VStr "e"); Ok_object VNull]) as Hres.
  { unfold Results_at. solve_Results_at. }
  pose proof (only_unwrap_and_expect_throw
                [Fail_object (VStr "e"); Ok_object VNull] 0 [0; 1]
                [Fail_object (VStr "e"); Ok_object VNull]
                (is_Fail_Result
                   [Fail_object (VStr "e"); Ok_object VNull] 0 (VStr "e")
                   eq_refl)
                Hres)
    as (Hcalls & Hcombine & Hthrow & _).
  split; [| split].
  - apply Hcalls; [reflexivity |]. intros v h. by eexists _, _.
  - exact Hcombine.
  - apply (Hthrow (VStr "e") eq_refl).
Defined.

(** ** Immutability *)

Lemma as_ref_alloc_fresh (m' : M loc) (m : M jsval) (mk : jsval -> object)
    (h : heap) (x : jsval) (h' : heap) :
  preserves m -> (forall y, constructed (mk y)) ->
  m' h = (y <- m ;; alloc (mk y)) h ->
  as_ref m' h = (Return x, h') ->
  exists r', x = VRef r' /\ h !! r' = None /\ is_Result h' r'.
Proof.
  intros Hm Hmk Heq. unfold as_ref, bind at 1. rewrite Heq.
  unfold bind. specialize (Hm h).
  destruct (m h) as [[y | exn |] h1]; simpl in *; [| done | done].
  unfold ret. intros [= <- <-]. exists (length h1).
  split; [done |]. split.
  - apply lookup_ge_None. by apply prefix_length.
  - exists (mk y). split; [apply lookup_alloc | apply Hmk].
Qed.

Lemma preserves_ret {A} (a : A) : preserves (ret a).
Proof. intros h. done. Qed.

Lemma transforms_fresh h r c x h' :
  is_Result h r -> callbacks (@preserves) c -> transforms c = true ->
  invoke c r h = (Return x, h') ->
  exists r', x = VRef r' /\ h !! r' = None /\ is_Result h' r'.
Proof.
  intros Hr Hcb Hc.
  destruct (is_Result_inv _ _ Hr) as [[v Hv] | [e He]];
    destruct c; try discriminate Hc; simpl in *.
  - apply (as_ref_alloc_fresh _ (mapFn v) Ok_object); [apply Hcb | by left |].
    apply (map_Ok _ _ _ Hv).
  - apply (as_ref_alloc_fresh _ (ret v) Ok_object);
      [apply preserves_ret | by left |].
    apply (mapFails_Ok _ _ _ Hv).
  - apply (as_ref_alloc_fresh _ (ret v) Fail_object);
      [apply preserves_ret | by right |].
    apply (flip_Ok _ _ _ Hv).
  - apply (as_ref_alloc_fresh _ (ret e) Fail_object);
      [apply preserves_ret | by right |].
    apply (map_Fail _ _ _ He).
  - apply (as_ref_alloc_fresh _ (mapFn e) Fail_object); [apply Hcb | by right |].
    apply (mapFails_Fail _ _ _ He).
  - apply (as_ref_alloc_fresh _ (ret e) Ok_object);
      [apply preserves_ret | by left |].
    apply (flip_Fail _ _ _ He).
Qed.

(** C8: no method of the interface writes to a Result.  After any call on
    [r], made with functions that themselves leave the store's objects
    alone, the store is the one before the call with new objects appended:
    every object that existed, [r] included, has the class, the flags and
    the payload it had.  The methods that transform, [map], [mapFails] and
    [flip], return a Result that did not exist before the call.
    [combine] leaves its inputs as they were in the same way. *)
Theorem results_are_immutable (h : heap) (r : loc) (c : call)
    (Hr : is_Result h r) (Hcb : callbacks (@preserves) c) :
  h `prefix_of` (invoke c r h).2
  /\ (forall l o, h !! l = Some o -> (invoke c r h).2 !! l = Some o)
  /\ (invoke c r h).2 !! r = h !! r
  /\ (transforms c = true ->
      forall x, (invoke c r h).1 = Return x ->
        exists r', x = VRef r' /\ h !! r' = None
                   /\ is_Result (invoke c r h).2 r')
  /\ (forall results l o,
        h !! l = Some o -> (ResultUtils.combine results h).2 !! l = Some o).
Proof.
  pose proof (invoke_preserves c r Hcb h) as Hpre.
  split; [exact Hpre |]. split; [| split; [| split]].
  - intros l o Hl. by eapply prefix_lookup_Some.
  - destruct Hr as (o & Ho & _). rewrite Ho.
    by eapply prefix_lookup_Some.
  - intros Hc x Hx. destruct (invoke c r h) as [out h'] eqn:Hrun.
    simpl in *. subst out. by eapply transforms_fresh.
  - intros results l o Hl.
    eapply prefix_lookup_Some; [exact Hl | apply combine_preserves].
Qed.

Lemma results_are_immutable_witness :
  (invoke (Call_map (pure_fn (fun x => VArray [x]))) 0 [Ok_object (VNum 1)]).2
    !! 0
  = Some (Ok_object (VNum 1))
  /\ exists r',
      VRef 1 = VRef r' /\ [Ok_object (VNum 1)] !! r' = None
      /\ is_Result
           (invoke (Call_map (pure_fn (fun x => VArray [x]))) 0
              [Ok_object (VNum 1)]).2 r'.
Proof.
  pose proof (results_are_immutable
                [Ok_object (VNum 1)] 0
                (Call_map (pure_fn (fun x => VArray [x])))
                (is_Ok_Result [Ok_object (VNum 1)] 0 (VNum 1) eq_refl)
                (fun v => preserves_ret (VArray [v])))
    as (_ & _ & Hsame & Hnew & _).
  split; [exact Hsame |].
  apply (Hnew eq_refl). reflexivity.
Defined.

(** ** The variant of a Result *)

Lemma get_isOk_Some h l o : h !! l = Some o -> get_isOk l h = (Return (isOk o), h).
Proof. intros H. unfold get_isOk, bind. by rewrite (deref_Some _ _ _ H). Qed.

Lemma get_isFail_Some h l o :
  h !! l = Some o -> get_isFail l h = (Return (isFail o), h).
Proof. intros H. unfold get_isFail, bind. by rewrite (deref_Some _ _ _ H). Qed.

Lemma combine_single_Fail h r e :
  is_Fail h r e ->
  ResultUtils.combine [r] h
  = (Return (length h), h ++ [Fail_object (VArray [e])]).
Proof.
  intros Hr. apply (combine_run h [r] [Fail_object e]).
  constructor; [| constructor]. split; [exact Hr | by right].
Qed.

(** C10: the variant of a Result is fixed by the constructor that built it
    and by nothing else.  In a store built by the two constructors every
    object has [isOk] equal to the negation of [isFail], and [isOk] holds
    exactly of the instances of [Ok]; every method and [combine] keep the
    store such.  For every payload [v], [new Ok(v)] has [isOk] true and
    [isFail] false, and [unwrap] returns [v].  For every payload [e],
    [new Fail(e)] has [isFail] true and [isOk] false, and each method and
    [combine] treat it as a failure. *)
Theorem variant_fixed_by_constructor (h : heap) (v e : jsval) (Hb : built h) :
  (forall r o, h !! r = Some o ->
     isOk o = negb (isFail o) /\ isOk o = bool_decide (proto o = OkClass))
  /\ (forall c r, callbacks (@keeps_built) c -> built (invoke c r h).2)
  /\ (forall results, built (ResultUtils.combine results h).2)
  /\ (let r := length h in
      let h' := h ++ [Ok_object v] in
      new_Ok v h = (Return r, h')
      /\ get_isOk r h' = (Return true, h')
      /\ get_isFail r h' = (Return false, h')
      /\ instanceof r OkClass h' = (Return true, h')
      /\ IResult.unwrap r h' = (Return v, h'))
  /\ (let r := length h in
      let h' := h ++ [Fail_object e] in
      new_Fail e h = (Return r, h')
      /\ get_isOk r h' = (Return false, h')
      /\ get_isFail r h' = (Return true, h')
      /\ instanceof r FailClass h' = (Return true, h')
      /\ (forall mapFn, IResult.map r mapFn h' = new_Fail e h')
      /\ (forall mapFn, IResult.flatMap r mapFn h' = new_Fail e h')
      /\ (forall mapFn,
            IResult.mapFails r mapFn h' = (x <- mapFn e ;; new_Fail x) h')
      /\ IResult.flip r h' = new_Ok e h'
      /\ IResult.unwrap r h'
         = (Throw (new_Error "Tried to unwrap a Fail result"), h')
      /\ (forall d, IResult.unwrapOr r d h' = (Return d, h'))
      /\ (forall fn, IResult.unwrapOrElse r fn h' = fn h')
      /\ (forall message,
            IResult.expect r message h' = (Throw (new_Error message), h'))
      /\ (forall other, IResult.and r other h' = new_Fail e h')
      /\ (forall other, IResult.or r other h' = (Return other, h'))
      /\ IResult.unwrapOrGetErrors r h' = (Return e, h')
      /\ ResultUtils.combine [r] h'
         = (Return (length h'), h' ++ [Fail_object (VArray [e])])).
Proof.
  split; [| split; [| split; [| split]]].
  - intros r o Hr.
    pose proof (built_constructed _ Hb) as Hall.
    rewrite Forall_lookup in Hall.
    by destruct (Hall _ _ Hr) as [-> | ->].
  - intros c r Hcb. by apply (invoke_keeps_built c r Hcb h).
  - intros results. by apply (combine_keeps_built results h).
  - pose proof (lookup_alloc h (Ok_object v)) as Hr. cbv zeta.
    split; [done |].
    rewrite (get_isOk_Some _ _ _ Hr), (get_isFail_Some _ _ _ Hr),
      (instanceof_Some _ _ _ _ Hr), (unwrap_Ok _ _ _ Hr).
    done.
  - pose proof (lookup_alloc h (Fail_object e)) as Hr. cbv zeta.
    split; [done |].
    rewrite (get_isOk_Some _ _ _ Hr), (get_isFail_Some _ _ _ Hr),
      (instanceof_Some _ _ _ _ Hr).
    repeat split; intros.
    + apply (map_Fail _ _ _ Hr).
    + apply (flatMap_Fail _ _ _ Hr).
    + apply (mapFails_Fail _ _ _ Hr).
    + apply (flip_Fail _ _ _ Hr).
    + apply (unwrap_Fail _ _ _ Hr).
    + apply (unwrapOr_Fail _ _ _ Hr).
    + apply (unwrapOrElse_Fail _ _ _ Hr).
    + apply (expect_Fail _ _ _ Hr).
    + apply (and_Fail _ _ _ Hr).
    + apply (or_Fail _ _ _ Hr).
    + apply (unwrapOrGetErrors_Fail _ _ _ Hr).
    + apply (combine_single_Fail _ _ _ Hr).
Qed.

Lemma variant_fixed_by_constructor_witness :
  built []
  /\ get_isOk 0 [Ok_object VUndefined] = (Return true, [Ok_object VUndefined])
  /\ IResult.unwrap 0 [Ok_object VUndefined]
     = (Return VUndefined, [Ok_object VUndefined])
  /\ get_isFail 0 [Fail_object VNull] = (Return true, [Fail_object VNull])
  /\ IResult.unwrapOr 0 (VNum 9) [Fail_object VNull]
     = (Return (VNum 9), [Fail_object VNull]).
Proof.
  pose proof (variant_fixed_by_constructor [] VUndefined VNull built_empty)
    as (_ & _ & _ & HOk & HFail).
  split; [exact built_empty |]. split; [apply HOk |]. split; [apply HOk |].
  split; [apply HFail |].
  destruct HFail as (_ & _ & _ & _ & _ & _ & _ & _ & _ & Hor & _).
  apply Hor.
Defined.

(** * Further properties of the methods *)

Lemma bind_alloc {A} (o : object) (k : loc -> M A) (h : heap) :
  (x <- alloc o ;; k x) h = k (length h) (h ++ [o]).
Proof. reflexivity. Qed.

Lemma is_Ok_alloc h v : is_Ok (h ++ [Ok_object v]) (length h) v.
Proof. apply lookup_alloc. Qed.

Lemma is_Fail_alloc h e : is_Fail (h ++ [Fail_object e]) (length h) e.
Proof. apply lookup_alloc. Qed.

Lemma is_Ok_extend h k r v : is_Ok h r v -> is_Ok (h ++ k) r v.
Proof. intros H. by apply lookup_app_l_Some. Qed.

Lemma is_Fail_extend h k r e : is_Fail h r e -> is_Fail (h ++ k) r e.
Proof. intros H. by apply lookup_app_l_Some. Qed.

(** ** [flatMap] *)

(** X1: the monad laws of [flatMap], for callbacks of any kind.
    [new Ok(v).flatMap(f)] is the run of [f(v)]; [r.flatMap(x => new Ok(x))]
    is a Result with the class and fields of [r]; and
    [r.flatMap(f).flatMap(g)] yields the same Result, or throws the same
    value, as [r.flatMap(x => f(x).flatMap(g))]. *)
Theorem flatMap_monad_laws (h : heap) (r : loc) (o : object)
    (Hr : h !! r = Some o) (Ho : constructed o)
    (v : jsval) (f g : jsval -> M loc) :
  (r0 <- new_Ok v ;; IResult.flatMap r0 f) h = f v (h ++ [Ok_object v])
  /\ result_of (IResult.flatMap r (fun x => new_Ok x) h) = Return (Some o)
  /\ result_of ((r1 <- IResult.flatMap r f ;; IResult.flatMap r1 g) h)
     = result_of
         (IResult.flatMap r (fun x => r1 <- f x ;; IResult.flatMap r1 g) h).
Proof.
  split; [| split].
  - unfold new_Ok. rewrite bind_alloc.
    apply (flatMap_Ok _ _ _ (is_Ok_alloc h v)).
  - destruct Ho as [Ho | Ho]; rewrite Ho in Hr |- *.
    + rewrite (flatMap_Ok _ _ _ Hr). apply result_of_alloc.
    + rewrite (flatMap_Fail _ _ _ Hr). apply result_of_alloc.
  - destruct Ho as [Ho | Ho]; rewrite Ho in Hr.
    + unfold bind at 1. by rewrite !(flatMap_Ok _ _ _ Hr).
    + unfold bind at 1. rewrite !(flatMap_Fail _ _ _ Hr).
      unfold new_Fail at 1, alloc at 1.
      rewrite (flatMap_Fail _ _ _ (is_Fail_alloc h (value o))).
      unfold new_Fail. by rewrite !result_of_alloc.
Qed.

Lemma flatMap_monad_laws_witness :
  result_of (IResult.flatMap 0 (fun x => new_Ok x) [Fail_object (VStr "e")])
  = Return (Some (Fail_object (VStr "e")))
  /\ result_of
       ((r1 <- IResult.flatMap 0 (fun x => new_Fail x) ;;
         IResult.flatMap r1 (fun x => new_Ok x)) [Ok_object (VNum 1)])
     = Return (Some (Fail_object (VNum 1))).
Proof.
  split.
  - apply (flatMap_monad_laws [Fail_object (VStr "e")] 0
             (Fail_object (VStr "e")) eq_refl (or_intror eq_refl)
             VNull (fun x => new_Ok x) (fun x => new_Ok x)).
  - pose proof (flatMap_monad_laws [Ok_object (VNum 1)] 0
                  (Ok_object (VNum 1)) eq_refl (or_introl eq_refl)
                  VNull (fun x => new_Fail x) (fun x => new_Ok x))
      as (_ & _ & Hassoc).
    exact (eq_trans Hassoc eq_refl).
Defined.

Lemma bind_ext {A B} (m : M A) (k k' : A -> M B) (h : heap) :
  (forall a h1, k a h1 = k' a h1) -> bind m k h = bind m k' h.
Proof.
  intros Hk. unfold bind. destruct (m h) as [[a | exn |] h1]; [| done | done].
  apply Hk.
Qed.

(** X2: [r.map(f)] is [r.flatMap(x => new Ok(f(x)))]: the two calls run
    the same steps, for every receiver and every callback. *)
Theorem map_is_flatMap_into_Ok (h : heap) (r : loc) (f : jsval -> M jsval) :
  IResult.map r f h = IResult.flatMap r (fun x => y <- f x ;; new_Ok y) h.
Proof.
  unfold IResult.map, IResult.flatMap, IResult.dispatch.
  apply bind_ext. intros o h1. by destruct (proto o).
Qed.

(** ** Running a sequence of calls *)

Lemma bind_eq {A B} (m m' : M A) (k : A -> M B) (h : heap) :
  m h = m' h -> bind m k h = bind m' k h.
Proof. intros H. unfold bind. by rewrite H. Qed.

Lemma bind_Return {A B} (m : M A) (k : A -> M B) (h : heap) a h1 :
  m h = (Return a, h1) -> bind m k h = k a h1.
Proof. intros H. unfold bind. by rewrite H. Qed.

Lemma bind_assoc {A B C} (m : M A) (k1 : A -> M B) (k2 : B -> M C) (h : heap) :
  (y <- (x <- m ;; k1 x) ;; k2 y) h = (x <- m ;; y <- k1 x ;; k2 y) h.
Proof. unfold bind. by destruct (m h) as [[a | exn |] h1]. Qed.

Lemma bind_ret {A B} (a : A) (k : A -> M B) (h : heap) :
  (x <- ret a ;; k x) h = k a h.
Proof. reflexivity. Qed.

Lemma bind_new_Ok {A} (v : jsval) (k : loc -> M A) (h : heap) :
  (x <- new_Ok v ;; k x) h = k (length h) (h ++ [Ok_object v]).
Proof. reflexivity. Qed.

Lemma bind_new_Fail {A} (e : jsval) (k : loc -> M A) (h : heap) :
  (x <- new_Fail e ;; k x) h = k (length h) (h ++ [Fail_object e]).
Proof. reflexivity. Qed.

Lemma bind_pure_fn {A} (f : jsval -> jsval) (x : jsval) (k : jsval -> M A)
    (h : heap) :
  (y <- pure_fn f x ;; k y) h = k (f x) h.
Proof. reflexivity. Qed.

Lemma result_of_new_Ok v h : result_of (new_Ok v h) = Return (Some (Ok_object v)).
Proof. apply result_of_alloc. Qed.

Lemma result_of_new_Fail e h :
  result_of (new_Fail e h) = Return (Some (Fail_object e)).
Proof. apply result_of_alloc. Qed.

(** ** [map], [mapFails] and [flip] together *)

(** X3: [mapFails] is [map] between two flips: for a function [f] on
    values, [r.flip().map(f).flip()] yields a Result with the class and
    fields of [r.mapFails(f)], on an [Ok] as on a [Fail]. *)
Theorem mapFails_is_map_between_flips (h : heap) (r : loc)
    (Hr : is_Result h r) (f : jsval -> jsval) :
  result_of
    ((r1 <- IResult.flip r ;; r2 <- IResult.map r1 (pure_fn f) ;;
      IResult.flip r2) h)
  = result_of (IResult.mapFails r (pure_fn f) h).
Proof.
  destruct (is_Result_inv _ _ Hr) as [[v Hv] | [e He]].
  - rewrite (bind_eq _ _ _ _ (flip_Ok _ _ _ Hv)), bind_new_Fail.
    rewrite (bind_eq _ _ _ _ (map_Fail _ _ _ (is_Fail_alloc h v) _)),
      bind_new_Fail.
    rewrite (flip_Fail _ _ _ (is_Fail_alloc _ v)).
    rewrite (mapFails_Ok _ _ _ Hv). by rewrite !result_of_new_Ok.
  - rewrite (bind_eq _ _ _ _ (flip_Fail _ _ _ He)), bind_new_Ok.
    rewrite (bind_eq _ _ _ _ (map_Ok _ _ _ (is_Ok_alloc h e) _)),
      bind_assoc, bind_pure_fn, bind_new_Ok.
    rewrite (flip_Ok _ _ _ (is_Ok_alloc _ (f e))).
    rewrite (mapFails_Fail _ _ _ He), bind_pure_fn.
    by rewrite !result_of_new_Fail.
Qed.

Lemma mapFails_is_map_between_flips_witness :
  result_of
    ((r1 <- IResult.flip 0 ;;
      r2 <- IResult.map r1 (pure_fn (fun x => VArray [x])) ;;
      IResult.flip r2) [Fail_object (VStr "e")])
  = Return (Some (Fail_object (VArray [VStr "e"]))).
Proof.
  exact (eq_trans
           (mapFails_is_map_between_flips [Fail_object (VStr "e")] 0
              (is_Fail_Result [Fail_object (VStr "e")] 0 (VStr "e") eq_refl)
              (fun x => VArray [x]))
           eq_refl).
Defined.

(** X4: [map] and [mapFails] act on the two sides of a Result and do not
    interfere.  For functions [f] and [g] on values, [r.map(f).mapFails(g)]
    and [r.mapFails(g).map(f)] yield the same Result: [Ok] of [f v] when
    [r] is an [Ok] holding [v], [Fail] of [g e] when [r] is a [Fail]
    holding [e]. *)
Theorem map_and_mapFails_commute (h : heap) (r : loc) (o : object)
    (Hr : h !! r = Some o) (Ho : constructed o) (f g : jsval -> jsval) :
  result_of
    ((r1 <- IResult.map r (pure_fn f) ;; IResult.mapFails r1 (pure_fn g)) h)
  = Return (Some (if isOk o then Ok_object (f (value o))
                  else Fail_object (g (value o))))
  /\ result_of
      ((r1 <- IResult.mapFails r (pure_fn g) ;; IResult.map r1 (pure_fn f)) h)
    = Return (Some (if isOk o then Ok_object (f (value o))
                    else Fail_object (g (value o)))).
Proof.
  destruct Ho as [Ho | Ho]; rewrite Ho in Hr |- *; simpl isOk; cbv iota; split.
  - rewrite (bind_eq _ _ _ _ (map_Ok _ _ _ Hr _)), bind_assoc, bind_pure_fn,
      bind_new_Ok.
    rewrite (mapFails_Ok _ _ _ (is_Ok_alloc _ _)). apply result_of_new_Ok.
  - rewrite (bind_eq _ _ _ _ (mapFails_Ok _ _ _ Hr _)), bind_new_Ok.
    rewrite (map_Ok _ _ _ (is_Ok_alloc _ _)), bind_pure_fn.
    apply result_of_new_Ok.
  - rewrite (bind_eq _ _ _ _ (map_Fail _ _ _ Hr _)), bind_new_Fail.
    rewrite (mapFails_Fail _ _ _ (is_Fail_alloc _ _)), bind_pure_fn.
    apply result_of_new_Fail.
  - rewrite (bind_eq _ _ _ _ (mapFails_Fail _ _ _ Hr _)), bind_assoc,
      bind_pure_fn, bind_new_Fail.
    rewrite (map_Fail _ _ _ (is_Fail_alloc _ _)). apply result_of_new_Fail.
Qed.

Lemma map_and_mapFails_commute_witness :
  result_of
    ((r1 <- IResult.map 0 (pure_fn (fun _ => VNum 1)) ;;
      IResult.mapFails r1 (pure_fn (fun x => VArray [x])))
       [Fail_object (VStr "e")])
  = Return (Some (Fail_object (VArray [VStr "e"]))).
Proof.
  apply (map_and_mapFails_commute [Fail_object (VStr "e")] 0
           (Fail_object (VStr "e")) eq_refl (or_intror eq_refl)
           (fun _ => VNum 1) (fun x => VArray [x])).
Defined.

(** ** [or] and [and] *)

(** X5: [a.or(b)] constructs nothing and returns one of its two operands
    by reference: [a] itself when [a] is an [Ok], [b] otherwise.  Chained,
    [a.or(b).or(c)] and [a.or(b.or(c))] run to the same reference and the
    same store: the first [Ok] among [a], [b], or else [c], which is never
    inspected. *)
Theorem or_selects_an_operand (h : heap) (a b c : loc) (oa ob : object)
    (Ha : h !! a = Some oa) (Hoa : constructed oa)
    (Hb : h !! b = Some ob) (Hob : constructed ob) :
  IResult.or a b h = (Return (if isOk oa then a else b), h)
  /\ (x <- IResult.or a b ;; IResult.or x c) h
     = (Return (if isOk oa then a else if isOk ob then b else c), h)
  /\ (y <- IResult.or b c ;; IResult.or a y) h
     = (x <- IResult.or a b ;; IResult.or x c) h.
Proof.
  destruct Hoa as [Hoa | Hoa]; rewrite Hoa in Ha |- *;
    destruct Hob as [Hob | Hob]; rewrite Hob in Hb |- *; simpl isOk; cbv iota.
  - rewrite (bind_Return _ _ _ _ _ (or_Ok _ _ _ Hb c)).
    rewrite (bind_Return _ _ _ _ _ (or_Ok _ _ _ Ha b)).
    by rewrite !(or_Ok _ _ _ Ha).
  - rewrite (bind_Return _ _ _ _ _ (or_Fail _ _ _ Hb c)).
    rewrite (bind_Return _ _ _ _ _ (or_Ok _ _ _ Ha b)).
    by rewrite !(or_Ok _ _ _ Ha).
  - rewrite (bind_Return _ _ _ _ _ (or_Ok _ _ _ Hb c)).
    rewrite (bind_Return _ _ _ _ _ (or_Fail _ _ _ Ha b)).
    by rewrite !(or_Fail _ _ _ Ha), (or_Ok _ _ _ Hb).
  - rewrite (bind_Return _ _ _ _ _ (or_Fail _ _ _ Hb c)).
    rewrite (bind_Return _ _ _ _ _ (or_Fail _ _ _ Ha b)).
    by rewrite !(or_Fail _ _ _ Ha), (or_Fail _ _ _ Hb).
Qed.

Lemma or_selects_an_operand_witness :
  (x <- IResult.or 0 1 ;; IResult.or x 2)
    [Fail_object (VStr "a"); Fail_object (VStr "b"); Ok_object (VNum 3)]
  = (Return 2,
     [Fail_object (VStr "a"); Fail_object (VStr "b"); Ok_object (VNum 3)]).
Proof.
  apply (or_selects_an_operand
           [Fail_object (VStr "a"); Fail_object (VStr "b"); Ok_object (VNum 3)]
           0 1 2 (Fail_object (VStr "a")) (Fail_object (VStr "b"))
           eq_refl (or_intror eq_refl) eq_refl (or_intror eq_refl)).
Defined.

(** X6: [and] is associative up to the identity of the object returned.
    [a.and(b).and(c)] and [a.and(b.and(c))] both yield: a [Fail] with the
    error of [a] when [a] failed; else a [Fail] with the error of [b] when
    [b] failed; else [c].  The error reported is that of the first failing
    operand among [a] and [b]. *)
Theorem and_is_associative (h : heap) (a b c : loc) (oa ob oc : object)
    (Ha : h !! a = Some oa) (Hoa : constructed oa)
    (Hb : h !! b = Some ob) (Hob : constructed ob)
    (Hc : h !! c = Some oc) :
  result_of ((x <- IResult.and a b ;; IResult.and x c) h)
  = Return (Some (if isOk oa
                  then if isOk ob then oc else Fail_object (value ob)
                  else Fail_object (value oa)))
  /\ result_of ((y <- IResult.and b c ;; IResult.and a y) h)
     = result_of ((x <- IResult.and a b ;; IResult.and x c) h).
Proof.
  destruct Hoa as [Hoa | Hoa]; rewrite Hoa in Ha |- *;
    destruct Hob as [Hob | Hob]; rewrite Hob in Hb |- *; simpl isOk; cbv iota.
  - rewrite (bind_Return _ _ _ _ _ (and_Ok _ _ _ Hb c)).
    rewrite (bind_Return _ _ _ _ _ (and_Ok _ _ _ Ha b)).
    rewrite (and_Ok _ _ _ Ha), (and_Ok _ _ _ Hb).
    unfold result_of. by rewrite Hc.
  - rewrite (bind_eq _ _ _ _ (and_Fail _ _ _ Hb c)), bind_new_Fail.
    rewrite (bind_Return _ _ _ _ _ (and_Ok _ _ _ Ha b)).
    rewrite (and_Ok _ _ _ (is_Ok_extend _ _ _ _ Ha)), (and_Fail _ _ _ Hb).
    unfold result_of at 2. rewrite lookup_alloc.
    by rewrite result_of_new_Fail.
  - rewrite (bind_Return _ _ _ _ _ (and_Ok _ _ _ Hb c)).
    rewrite (bind_eq _ _ _ _ (and_Fail _ _ _ Ha b)), bind_new_Fail.
    rewrite (and_Fail _ _ _ Ha), (and_Fail _ _ _ (is_Fail_alloc _ _)).
    by rewrite !result_of_new_Fail.
  - rewrite (bind_eq _ _ _ _ (and_Fail _ _ _ Hb c)), bind_new_Fail.
    rewrite (bind_eq _ _ _ _ (and_Fail _ _ _ Ha b)), bind_new_Fail.
    rewrite (and_Fail _ _ _ (is_Fail_extend _ _ _ _ Ha)),
      (and_Fail _ _ _ (is_Fail_alloc _ _)).
    by rewrite !result_of_new_Fail.
Qed.

Lemma and_is_associative_witness :
  result_of
    ((y <- IResult.and 1 2 ;; IResult.and 0 y)
       [Ok_object (VNum 1); Fail_object (VStr "b"); Fail_object (VStr "c")])
  = Return (Some (Fail_object (VStr "b"))).
Proof.
  pose proof (and_is_associative
                [Ok_object (VNum 1); Fail_object (VStr "b");
                 Fail_object (VStr "c")]
                0 1 2 (Ok_object (VNum 1)) (Fail_object (VStr "b"))
                (Fail_object (VStr "c"))
                eq_refl (or_introl eq_refl) eq_refl (or_intror eq_refl)
                eq_refl) as [Hleft Hright].
  exact (eq_trans Hright Hleft).
Defined.

(** ** Extracting the payload *)

(** X7: an eager default is a constant lazy one: [r.unwrapOr(d)] and
    [r.unwrapOrElse(() => d)] run the same steps on every receiver. *)
Theorem unwrapOr_is_unwrapOrElse_const (h : heap) (r : loc) (d : jsval) :
  IResult.unwrapOr r d h = IResult.unwrapOrElse r (ret d) h.
Proof.
  unfold IResult.unwrapOr, IResult.unwrapOrElse, IResult.dispatch.
  apply bind_ext. intros o h1. by destruct (proto o).
Qed.

(** X8: the methods that extract or select construct nothing.  After
    [unwrap], [unwrapOr], [expect], [or] or [unwrapOrGetErrors], whether
    the call returned or threw, the store is the very store the call
    started from. *)
Theorem extracting_constructs_nothing (h : heap) (r : loc) (c : call)
    (Hc : reads_only c = true) :
  (invoke c r h).2 = h.
Proof.
  destruct c; try discriminate Hc; simpl;
    unfold as_ref, IResult.unwrap, IResult.unwrapOr, IResult.expect,
      IResult.or, IResult.unwrapOrGetErrors, IResult.dispatch,
      Ok.unwrap, Ok.unwrapOr, Ok.expect, Ok.or, Ok.unwrapOrGetErrors,
      Fail.unwrap, Fail.unwrapOr, Fail.expect, Fail.or,
      Fail.unwrapOrGetErrors, get_value, bind, deref, ret, throw;
    destruct (h !! r) as [o |] eqn:Hr; try done;
    destruct (proto o); rewrite ?Hr; done.
Qed.

Lemma extracting_constructs_nothing_witness :
  (invoke (Call_expect "no value") 0 [Fail_object (VStr "e")]).2
  = [Fail_object (VStr "e")].
Proof.
  apply (extracting_constructs_nothing
           [Fail_object (VStr "e")] 0 (Call_expect "no value") eq_refl).
Defined.

(** ** Callbacks that throw *)

(** X9: a value thrown by a callback passes through the method that
    called it.  When the callback throws, [map] and [flatMap] on an [Ok],
    and [mapFails] and [unwrapOrElse] on a [Fail], throw that same value;
    no Result is constructed for it, the store being the one the callback
    left. *)
Theorem callback_exception_propagates (h : heap) (r r' : loc) (v e : jsval)
    (Hok : is_Ok h r v) (Hfail : is_Fail h r' e) (exn : jsval) (h1 : heap) :
  (forall f, f v h = (Throw exn, h1) -> IResult.map r f h = (Throw exn, h1))
  /\ (forall f, f v h = (Throw exn, h1) ->
        IResult.flatMap r f h = (Throw exn, h1))
  /\ (forall f, f e h = (Throw exn, h1) ->
        IResult.mapFails r' f h = (Throw exn, h1))
  /\ (forall fn, fn h = (Throw exn, h1) ->
        IResult.unwrapOrElse r' fn h = (Throw exn, h1)).
Proof.
  repeat split.
  - intros f Hf. rewrite (map_Ok _ _ _ Hok). unfold bind. by rewrite Hf.
  - intros f Hf. by rewrite (flatMap_Ok _ _ _ Hok).
  - intros f Hf. rewrite (mapFails_Fail _ _ _ Hfail). unfold bind. by rewrite Hf.
  - intros fn Hfn. by rewrite (unwrapOrElse_Fail _ _ _ Hfail).
Qed.

Lemma callback_exception_propagates_witness :
  IResult.map 0 (fun _ => throw (VStr "boom"))
    [Ok_object (VNum 1); Fail_object (VStr "e")]
  = (Throw (VStr "boom"), [Ok_object (VNum 1); Fail_object (VStr "e")]).
Proof.
  pose proof (callback_exception_propagates
                [Ok_object (VNum 1); Fail_object (VStr "e")] 0 1
                (VNum 1) (VStr "e") eq_refl eq_refl (VStr "boom")
                [Ok_object (VNum 1); Fail_object (VStr "e")]) as (Hmap & _).
  apply Hmap. reflexivity.
Defined.

(** ** Chains on a [Fail] *)

(** X10: a chain of [flatMap] calls short-circuits on a [Fail].  Whatever
    the callbacks are, and however many, [r.flatMap(f1)...flatMap(fn)] on a
    [Fail] holding [e] returns a [Fail] holding [e]; no callback is run,
    and each of the [n] calls constructs one [Fail] of its own. *)
Theorem flatMap_chain_short_circuits (h : heap) (r : loc) (e : jsval)
    (Hr : is_Fail h r e) (fs : list (jsval -> M loc)) :
  exists r',
    flatMap_chain r fs h
    = (Return r', h ++ replicate (length fs) (Fail_object e))
    /\ is_Fail (h ++ replicate (length fs) (Fail_object e)) r' e.
Proof.
  revert h r Hr. induction fs as [| f fs IH]; intros h r Hr; simpl.
  - exists r. rewrite app_nil_r. by split.
  - rewrite (bind_eq _ _ _ _ (flatMap_Fail _ _ _ Hr f)), bind_new_Fail.
    destruct (IH _ _ (is_Fail_alloc h e)) as (r' & Hrun & Hr').
    exists r'. rewrite <- app_assoc in Hrun, Hr'. by split.
Qed.

Lemma flatMap_chain_short_circuits_witness :
  exists r',
    flatMap_chain 0 [fun _ => throw (VStr "ran"); fun x => new_Ok x]
      [Fail_object (VStr "e")]
    = (Return r',
       [Fail_object (VStr "e")]
         ++ replicate 2 (Fail_object (VStr "e")))
    /\ is_Fail
         ([Fail_object (VStr "e")] ++ replicate 2 (Fail_object (VStr "e")))
         r' (VStr "e").
Proof.
  apply (flatMap_chain_short_circuits [Fail_object (VStr "e")] 0 (VStr "e")
           eq_refl [fun _ => throw (VStr "ran"); fun x => new_Ok x]).
Defined.

Lemma and_chain_Fail h r e rs :
  is_Fail h r e ->
  result_of (and_chain r rs h) = Return (Some (Fail_object e)).
Proof.
  revert h r. induction rs as [| x rs IH]; intros h r Hr; simpl.
  - unfold ret, result_of. by rewrite Hr.
  - rewrite (bind_eq _ _ _ _ (and_Fail _ _ _ Hr x)), bind_new_Fail.
    apply IH, is_Fail_alloc.
Qed.

Lemma default_last_cons {A} (r x : A) (l : list A) :
  default r (last (x :: l)) = default x (last l).
Proof. rewrite last_cons. by destruct (last l). Qed.

Lemma and_chain_run h r rs o objs :
  Results_at h (r :: rs) (o :: objs) ->
  match spec_failure_errors (o :: objs) with
  | e :: _ => result_of (and_chain r rs h) = Return (Some (Fail_object e))
  | [] => and_chain r rs h = (Return (default r (last rs)), h)
  end.
Proof.
  revert r o objs. induction rs as [| x rs IH]; intros r o objs Hres;
    apply Forall2_cons in Hres as [[Hr Ho] Hres].
  - apply Forall2_nil_inv_l in Hres as ->.
    destruct Ho as [Ho | Ho]; rewrite Ho in Hr |- *; simpl; [done |].
    unfold ret, result_of. by rewrite Hr.
  - destruct objs as [| ox objs]; [by apply Forall2_nil_inv_r in Hres |].
    destruct Ho as [Ho | Ho]; rewrite Ho in Hr |- *.
    + change (spec_failure_errors (Ok_object (value o) :: ox :: objs))
        with (spec_failure_errors (ox :: objs)).
      specialize (IH x ox objs Hres).
      simpl and_chain.
      rewrite (bind_Return _ _ _ _ _ (and_Ok _ _ _ Hr x)).
      by rewrite default_last_cons.
    + change (spec_failure_errors (Fail_object (value o) :: ox :: objs))
        with (value o :: spec_failure_errors (ox :: objs)).
      apply (and_chain_Fail _ _ _ (x :: rs) Hr).
Qed.

Lemma result_of_combine h results objs :
  Results_at h results objs ->
  result_of (ResultUtils.combine results h)
  = Return (Some (if 0 <? failing objs
                  then Fail_object (VArray (spec_failure_errors objs))
                  else Ok_object (VArray (value <$> objs)))).
Proof.
  intros Hres. rewrite (combine_run _ _ _ Hres).
  unfold result_of. by rewrite lookup_alloc.
Qed.

Lemma failing_0_no_errors objs : failing objs = 0 -> spec_failure_errors objs = [].
Proof.
  intros H. rewrite <- length_spec_failure_errors in H.
  by destruct (spec_failure_errors objs).
Qed.

(** X11: [combine] and a chain of [and] agree on the first error.  For
    Results [r, r1, ..., rn]: when [combine] fails, its list of errors is
    not empty and its first entry is the error that
    [r.and(r1)...and(rn)] reports; when [combine] succeeds, the chain
    constructs nothing and returns the last Result of the sequence
    itself. *)
Theorem and_chain_reports_first_combine_error (h : heap) (r : loc)
    (rs : list loc) (o : object) (objs : list object)
    (Hres : Results_at h (r :: rs) (o :: objs)) :
  (forall errs,
     result_of (ResultUtils.combine (r :: rs) h)
     = Return (Some (Fail_object (VArray errs))) ->
     exists e rest,
       errs = e :: rest
       /\ result_of (and_chain r rs h) = Return (Some (Fail_object e)))
  /\ (forall vs,
        result_of (ResultUtils.combine (r :: rs) h)
        = Return (Some (Ok_object (VArray vs))) ->
        and_chain r rs h = (Return (default r (last rs)), h)).
Proof.
  rewrite (result_of_combine _ _ _ Hres).
  pose proof (and_chain_run _ _ _ _ _ Hres) as Hchain.
  pose proof (length_spec_failure_errors (o :: objs)) as Hlen.
  pose proof (failing_0_no_errors (o :: objs)) as Hnone.
  remember (spec_failure_errors (o :: objs)) as all eqn:Hall.
  remember (failing (o :: objs)) as n eqn:Hn. clear Hall Hn.
  destruct (0 <? n) eqn:Hpos; split.
  - intros errs [= <-]. apply Nat.ltb_lt in Hpos.
    destruct all as [| e rest]; [simpl in Hlen; lia |].
    by exists e, rest.
  - intros vs [=].
  - intros errs [=].
  - intros vs _. apply Nat.ltb_ge in Hpos.
    by rewrite Hnone in Hchain by lia.
Qed.

Lemma and_chain_reports_first_combine_error_witness :
  exists e rest,
    [VStr "a"; VStr "b"] = e :: rest
    /\ result_of
         (and_chain 0 [1; 2]
            [Ok_object (VNum 1); Fail_object (VStr "a"); Fail_object (VStr "b")])
       = Return (Some (Fail_object e)).
Proof.
  assert (Results_at
            [Ok_object (VNum 1); Fail_object (VStr "a"); Fail_object (VStr "b")]
            [0; 1; 2]
            [Ok_object (VNum 1); Fail_object (VStr "a"); Fail_object (VStr "b")])
    as Hres.
  { unfold Results_at. solve_Results_at. }
  apply (and_chain_reports_first_combine_error _ _ _ _ _ Hres). reflexivity.
Defined.

(** ** More on [combine] *)

Lemma Results_at_app h rs1 rs2 objs1 objs2 :
  Results_at h rs1 objs1 -> Results_at h rs2 objs2 ->
  Results_at h (rs1 ++ rs2) (objs1 ++ objs2).
Proof. apply Forall2_app. Qed.

Lemma failing_app objs1 objs2 :
  failing (objs1 ++ objs2) = failing objs1 + failing objs2.
Proof. unfold failing. by rewrite filter_app, length_app. Qed.

Lemma spec_failure_errors_app objs1 objs2 :
  spec_failure_errors (objs1 ++ objs2)
  = spec_failure_errors objs1 ++ spec_failure_errors objs2.
Proof. by rewrite !spec_failure_errors_filter, filter_app, fmap_app. Qed.

Lemma combine_Ok_inv (n : nat) (errs vals a : list jsval) :
  Return (Some (if 0 <? n then Fail_object (VArray errs)
                else Ok_object (VArray vals)))
  = Return (Some (Ok_object (VArray a))) ->
  n = 0 /\ vals = a.
Proof.
  destruct (0 <? n) eqn:Hn; intros [=]. subst.
  apply Nat.ltb_ge in Hn. split; [lia | done].
Qed.

Lemma combine_Fail_inv (n : nat) (errs vals a : list jsval) :
  Return (Some (if 0 <? n then Fail_object (VArray errs)
                else Ok_object (VArray vals)))
  = Return (Some (Fail_object (VArray a))) ->
  0 < n /\ errs = a.
Proof.
  destruct (0 <? n) eqn:Hn; intros [=]. subst.
  apply Nat.ltb_lt in Hn. by split.
Qed.

(** X12: [combine] of a concatenation, from [combine] of the parts.  When
    both parts succeed the result is the [Ok] of the two value arrays
    appended; when both fail it is the [Fail] of the two error arrays
    appended; when one part fails and the other succeeds it is the [Fail]
    of the failing part's errors, and the values of the other part are
    dropped. *)
Theorem combine_of_concatenation (h : heap) (rs1 rs2 : list loc)
    (objs1 objs2 : list object)
    (H1 : Results_at h rs1 objs1) (H2 : Results_at h rs2 objs2)
    (a b : list jsval) :
  let one := result_of (ResultUtils.combine rs1 h) in
  let two := result_of (ResultUtils.combine rs2 h) in
  let both := result_of (ResultUtils.combine (rs1 ++ rs2) h) in
  (one = Return (Some (Ok_object (VArray a))) ->
   two = Return (Some (Ok_object (VArray b))) ->
   both = Return (Some (Ok_object (VArray (a ++ b)))))
  /\ (one = Return (Some (Fail_object (VArray a))) ->
      two = Return (Some (Fail_object (VArray b))) ->
      both = Return (Some (Fail_object (VArray (a ++ b)))))
  /\ (one = Return (Some (Fail_object (VArray a))) ->
      two = Return (Some (Ok_object (VArray b))) ->
      both = Return (Some (Fail_object (VArray a))))
  /\ (one = Return (Some (Ok_object (VArray a))) ->
      two = Return (Some (Fail_object (VArray b))) ->
      both = Return (Some (Fail_object (VArray b)))).
Proof.
  cbv zeta.
  rewrite (result_of_combine _ _ _ H1), (result_of_combine _ _ _ H2),
    (result_of_combine _ _ _ (Results_at_app _ _ _ _ _ H1 H2)).
  rewrite failing_app, spec_failure_errors_app, fmap_app.
  repeat split.
  - intros [Hn1 <-]%combine_Ok_inv [Hn2 <-]%combine_Ok_inv.
    by rewrite Hn1, Hn2.
  - intros [Hn1 <-]%combine_Fail_inv [Hn2 <-]%combine_Fail_inv.
    by replace (0 <? failing objs1 + failing objs2) with true
      by (symmetry; apply Nat.ltb_lt; lia).
  - intros [Hn1 <-]%combine_Fail_inv [Hn2 <-]%combine_Ok_inv.
    rewrite (failing_0_no_errors _ Hn2), app_nil_r.
    by replace (0 <? failing objs1 + failing objs2) with true
      by (symmetry; apply Nat.ltb_lt; lia).
  - intros [Hn1 <-]%combine_Ok_inv [Hn2 <-]%combine_Fail_inv.
    rewrite (failing_0_no_errors _ Hn1), Hn1. simpl.
    by replace (0 <? failing objs2) with true
      by (symmetry; apply Nat.ltb_lt; lia).
Qed.

Lemma combine_of_concatenation_witness :
  result_of
    (ResultUtils.combine ([0] ++ [1; 2])
       [Ok_object (VNum 1); Fail_object (VStr "a"); Fail_object (VStr "b")])
  = Return (Some (Fail_object (VArray [VStr "a"; VStr "b"]))).
Proof.
  assert (Results_at
            [Ok_object (VNum 1); Fail_object (VStr "a"); Fail_object (VStr "b")]
            [0] [Ok_object (VNum 1)]) as H1.
  { unfold Results_at. solve_Results_at. }
  assert (Results_at
            [Ok_object (VNum 1); Fail_object (VStr "a"); Fail_object (VStr "b")]
            [1; 2] [Fail_object (VStr "a"); Fail_object (VStr "b")]) as H2.
  { unfold Results_at. solve_Results_at. }
  pose proof (combine_of_concatenation _ _ _ _ _ H1 H2
                [VNum 1] [VStr "a"; VStr "b"]) as (_ & _ & _ & Hmixed).
  apply Hmixed; reflexivity.
Defined.

(** X13: [combine(...).unwrapOrGetErrors()] never throws and always
    returns an array: the errors of the failing inputs when there are
    some, the values of all inputs otherwise.  The array has one entry
    per failing input in the first case and one entry per input in the
    second. *)
Theorem combine_unwrapOrGetErrors_is_an_array (h : heap)
    (results : list loc) (objs : list object)
    (Hres : Results_at h results objs) :
  exists items h',
    (r <- ResultUtils.combine results ;; IResult.unwrapOrGetErrors r) h
    = (Return (VArray items), h')
    /\ items = (if 0 <? failing objs then spec_failure_errors objs
                else value <$> objs)
    /\ length items = (if 0 <? failing objs then failing objs
                       else length results).
Proof.
  rewrite (bind_Return _ _ _ _ _ (combine_run _ _ _ Hres)).
  pose proof (Forall2_length _ _ _ Hres) as Hlen.
  destruct (0 <? failing objs).
  - exists (spec_failure_errors objs). eexists.
    rewrite (unwrapOrGetErrors_Fail _ _ _ (is_Fail_alloc _ _)).
    by rewrite length_spec_failure_errors.
  - exists (value <$> objs). eexists.
    rewrite (unwrapOrGetErrors_Ok _ _ _ (is_Ok_alloc _ _)).
    by rewrite length_fmap.
Qed.

Lemma combine_unwrapOrGetErrors_is_an_array_witness :
  exists items h',
    (r <- ResultUtils.combine [0; 1] ;; IResult.unwrapOrGetErrors r)
      [Fail_object (VStr "Invalid email format");
       Fail_object (VStr "Password too weak")]
    = (Return (VArray items), h')
    /\ items
       = (if 0 <? failing [Fail_object (VStr "Invalid email format");
                           Fail_object (VStr "Password too weak")]
          then spec_failure_errors
                 [Fail_object (VStr "Invalid email format");
                  Fail_object (VStr "Password too weak")]
          else value <$> [Fail_object (VStr "Invalid email format");
                          Fail_object (VStr "Password too weak")])
    /\ length items
       = (if 0 <? failing [Fail_object (VStr "Invalid email format");
                           Fail_object (VStr "Password too weak")]
          then failing [Fail_object (VStr "Invalid email format");
                        Fail_object (VStr "Password too weak")]
          else length [0; 1]).
Proof.
  apply (combine_unwrapOrGetErrors_is_an_array
           [Fail_object (VStr "Invalid email format");
            Fail_object (VStr "Password too weak")] [0; 1]
           [Fail_object (VStr "Invalid email format");
            Fail_object (VStr "Password too weak")]).
  unfold Results_at. solve_Results_at.
Defined.

Lemma Results_at_omap h results objs :
  Results_at h results objs -> objs = omap (fun r => h !! r) results.
Proof.
  induction 1 as [| r o rs objs [Hr _] _ IH]; [done |].
  change (omap (fun r => h !! r) (r :: rs))
    with (match h !! r with
          | Some y => y :: omap (fun r => h !! r) rs
          | None => omap (fun r => h !! r) rs
          end).
  by rewrite Hr, <- IH.
Qed.

Lemma spec_failure_errors_Permutation objs1 objs2 :
  objs1 ≡ₚ objs2 -> spec_failure_errors objs1 ≡ₚ spec_failure_errors objs2.
Proof. intros H. rewrite !spec_failure_errors_filter. by rewrite H. Qed.

Lemma failing_Permutation objs1 objs2 :
  objs1 ≡ₚ objs2 -> failing objs1 = failing objs2.
Proof. intros H. unfold failing. by rewrite H. Qed.

(** X14: the order of the inputs of [combine] decides the order of its
    output and nothing else.  When [results2] is a rearrangement of
    [results1], the two calls return the same variant, and the array of
    one is a rearrangement of the array of the other. *)
Theorem combine_of_rearranged_inputs (h : heap) (results1 results2 : list loc)
    (objs1 objs2 : list object)
    (H1 : Results_at h results1 objs1) (H2 : Results_at h results2 objs2)
    (Hperm : results1 ≡ₚ results2) :
  (forall a,
     result_of (ResultUtils.combine results1 h)
     = Return (Some (Ok_object (VArray a))) ->
     exists b, result_of (ResultUtils.combine results2 h)
               = Return (Some (Ok_object (VArray b)))
               /\ a ≡ₚ b)
  /\ (forall a,
        result_of (ResultUtils.combine results1 h)
        = Return (Some (Fail_object (VArray a))) ->
        exists b, result_of (ResultUtils.combine results2 h)
                  = Return (Some (Fail_object (VArray b)))
                  /\ a ≡ₚ b).
Proof.
  assert (objs1 ≡ₚ objs2) as Hobjs.
  { rewrite (Results_at_omap _ _ _ H1), (Results_at_omap _ _ _ H2).
    by rewrite Hperm. }
  rewrite (result_of_combine _ _ _ H1), (result_of_combine _ _ _ H2).
  rewrite <- (failing_Permutation _ _ Hobjs).
  split; intros a.
  - intros [Hn <-]%combine_Ok_inv. rewrite Hn. simpl.
    exists (value <$> objs2). split; [done | by rewrite Hobjs].
  - intros [Hn <-]%combine_Fail_inv.
    replace (0 <? failing objs1) with true by (symmetry; by apply Nat.ltb_lt).
    exists (spec_failure_errors objs2).
    split; [done | by apply spec_failure_errors_Permutation].
Qed.

Lemma combine_of_rearranged_inputs_witness :
  exists b,
    result_of
      (ResultUtils.combine [2; 1; 0]
         [Fail_object (VStr "a"); Ok_object (VNum 1); Fail_object (VStr "b")])
    = Return (Some (Fail_object (VArray b)))
    /\ [VStr "a"; VStr "b"] ≡ₚ b.
Proof.
  assert (Results_at
            [Fail_object (VStr "a"); Ok_object (VNum 1); Fail_object (VStr "b")]
            [0; 1; 2]
            [Fail_object (VStr "a"); Ok_object (VNum 1); Fail_object (VStr "b")])
    as H1.
  { unfold Results_at. solve_Results_at. }
  assert (Results_at
            [Fail_object (VStr "a"); Ok_object (VNum 1); Fail_object (VStr "b")]
            [2; 1; 0]
            [Fail_object (VStr "b"); Ok_object (VNum 1); Fail_object (VStr "a")])
    as H2.
  { unfold Results_at. solve_Results_at. }
  assert ([0; 1; 2] ≡ₚ [2; 1; 0]) as Hperm.
  { symmetry. apply (reverse_Permutation [0; 1; 2]). }
  apply (combine_of_rearranged_inputs _ _ _ _ _ H1 H2 Hperm). reflexivity.
Defined.

(** ** [flip] and the extractors *)

(** X15: [flip] exchanges the roles of value and error.  On the flipped
    Result [isOk] is the [isFail] of the original; [unwrapOrGetErrors]
    returns the payload it returned before; and [unwrap] returns the error
    of a [Fail], while on an [Ok] it now throws. *)
Theorem flip_exchanges_roles (h : heap) (r : loc) (o : object)
    (Hr : h !! r = Some o) (Ho : constructed o) :
  ((r1 <- IResult.flip r ;; get_isOk r1) h).1 = Return (isFail o)
  /\ ((r1 <- IResult.flip r ;; get_isFail r1) h).1 = Return (isOk o)
  /\ ((r1 <- IResult.flip r ;; IResult.unwrapOrGetErrors r1) h).1
     = (IResult.unwrapOrGetErrors r h).1
  /\ ((r1 <- IResult.flip r ;; IResult.unwrap r1) h).1
     = (if isFail o then Return (value o)
        else Throw (new_Error "Tried to unwrap a Fail result")).
Proof.
  destruct Ho as [Ho | Ho]; rewrite Ho in Hr |- *; simpl isOk; simpl isFail;
    cbv iota.
  - rewrite !(bind_eq _ _ _ _ (flip_Ok _ _ _ Hr)), !bind_new_Fail.
    rewrite (get_isOk_Some _ _ _ (is_Fail_alloc h (value o))),
      (get_isFail_Some _ _ _ (is_Fail_alloc h (value o))),
      (unwrapOrGetErrors_Fail _ _ _ (is_Fail_alloc h (value o))),
      (unwrap_Fail _ _ _ (is_Fail_alloc h (value o))),
      (unwrapOrGetErrors_Ok _ _ _ Hr).
    done.
  - rewrite !(bind_eq _ _ _ _ (flip_Fail _ _ _ Hr)), !bind_new_Ok.
    rewrite (get_isOk_Some _ _ _ (is_Ok_alloc h (value o))),
      (get_isFail_Some _ _ _ (is_Ok_alloc h (value o))),
      (unwrapOrGetErrors_Ok _ _ _ (is_Ok_alloc h (value o))),
      (unwrap_Ok _ _ _ (is_Ok_alloc h (value o))),
      (unwrapOrGetErrors_Fail _ _ _ Hr).
    done.
Qed.

Lemma flip_exchanges_roles_witness :
  ((r1 <- IResult.flip 0 ;; IResult.unwrap r1) [Fail_object (VStr "e")]).1
  = Return (VStr "e").
Proof.
  pose proof (flip_exchanges_roles [Fail_object (VStr "e")] 0
                (Fail_object (VStr "e")) eq_refl (or_intror eq_refl))
    as (_ & _ & _ & Hunwrap).
  exact Hunwrap.
Defined.

(** ** Composition on either variant *)

(** X16: composition for both mapping methods, on either variant.  For
    functions [f] and [g] on values and any Result [r],
    [r.map(f).map(g)] yields the Result of [r.map(x => g(f(x)))], and
    [r.mapFails(f).mapFails(g)] yields the Result of
    [r.mapFails(x => g(f(x)))]. *)
Theorem mapping_composes_on_either_variant (h : heap) (r : loc)
    (Hr : is_Result h r) (f g : jsval -> jsval) :
  result_of ((r1 <- IResult.map r (pure_fn f) ;; IResult.map r1 (pure_fn g)) h)
  = result_of (IResult.map r (pure_fn (fun x => g (f x))) h)
  /\ result_of
      ((r1 <- IResult.mapFails r (pure_fn f) ;;
        IResult.mapFails r1 (pure_fn g)) h)
    = result_of (IResult.mapFails r (pure_fn (fun x => g (f x))) h).
Proof.
  destruct (is_Result_inv _ _ Hr) as [[v Hv] | [e He]]; split.
  - rewrite (bind_eq _ _ _ _ (map_Ok _ _ _ Hv _)), bind_assoc, bind_pure_fn,
      bind_new_Ok.
    rewrite (map_Ok _ _ _ (is_Ok_alloc _ _)), (map_Ok _ _ _ Hv), !bind_pure_fn.
    by rewrite !result_of_new_Ok.
  - rewrite (bind_eq _ _ _ _ (mapFails_Ok _ _ _ Hv _)), bind_new_Ok.
    rewrite (mapFails_Ok _ _ _ (is_Ok_alloc _ _)), (mapFails_Ok _ _ _ Hv).
    by rewrite !result_of_new_Ok.
  - rewrite (bind_eq _ _ _ _ (map_Fail _ _ _ He _)), bind_new_Fail.
    rewrite (map_Fail _ _ _ (is_Fail_alloc _ _)), (map_Fail _ _ _ He).
    by rewrite !result_of_new_Fail.
  - rewrite (bind_eq _ _ _ _ (mapFails_Fail _ _ _ He _)), bind_assoc,
      bind_pure_fn, bind_new_Fail.
    rewrite (mapFails_Fail _ _ _ (is_Fail_alloc _ _)),
      (mapFails_Fail _ _ _ He), !bind_pure_fn.
    by rewrite !result_of_new_Fail.
Qed.

Lemma mapping_composes_on_either_variant_witness :
  result_of
    ((r1 <- IResult.mapFails 0 (pure_fn (fun x => VArray [x])) ;;
      IResult.mapFails r1 (pure_fn (fun x => VArray [x; x])))
       [Fail_object (VStr "e")])
  = Return (Some (Fail_object (VArray [VArray [VStr "e"]; VArray [VStr "e"]]))).
Proof.
  pose proof (mapping_composes_on_either_variant [Fail_object (VStr "e")] 0
                (is_Fail_Result [Fail_object (VStr "e")] 0 (VStr "e") eq_refl)
                (fun x => VArray [x]) (fun x => VArray [x; x])) as [_ Hfails].
  exact (eq_trans Hfails eq_refl).
Defined.

(** X17: mapping and then unwrapping with a default is a case analysis on
    the Result: for a function [f] on values, [r.map(f).unwrapOr(d)]
    returns [f v] when [r] is an [Ok] holding [v], and [d] when [r] is a
    [Fail]; it never throws. *)
Theorem map_then_unwrapOr (h : heap) (r : loc) (o : object)
    (Hr : h !! r = Some o) (Ho : constructed o)
    (f : jsval -> jsval) (d : jsval) :
  ((r1 <- IResult.map r (pure_fn f) ;; IResult.unwrapOr r1 d) h).1
  = Return (if isOk o then f (value o) else d).
Proof.
  destruct Ho as [Ho | Ho]; rewrite Ho in Hr |- *; simpl isOk; cbv iota.
  - rewrite (bind_eq _ _ _ _ (map_Ok _ _ _ Hr _)), bind_assoc, bind_pure_fn,
      bind_new_Ok.
    by rewrite (unwrapOr_Ok _ _ _ (is_Ok_alloc _ _)).
  - rewrite (bind_eq _ _ _ _ (map_Fail _ _ _ Hr _)), bind_new_Fail.
    by rewrite (unwrapOr_Fail _ _ _ (is_Fail_alloc _ _)).
Qed.

Lemma map_then_unwrapOr_witness :
  ((r1 <- IResult.map 0 (pure_fn (fun x => VArray [x])) ;;
    IResult.unwrapOr r1 VNull) [Fail_object (VStr "e")]).1
  = Return VNull.
Proof.
  apply (map_then_unwrapOr [Fail_object (VStr "e")] 0 (Fail_object (VStr "e"))
           eq_refl (or_intror eq_refl) (fun x => VArray [x]) VNull).
Defined.

(** X18: [and] and [or] are dual under [flip].  For Results [a] and [b],
    [a.and(b).flip()] yields the Result of [a.flip().or(b.flip())], and
    [a.or(b).flip()] yields the Result of [a.flip().and(b.flip())]. *)
Theorem and_or_dual_under_flip (h : heap) (a b : loc) (oa ob : object)
    (Ha : h !! a = Some oa) (Hoa : constructed oa)
    (Hb : h !! b = Some ob) (Hob : constructed ob) :
  result_of ((x <- IResult.and a b ;; IResult.flip x) h)
  = result_of
      ((x <- IResult.flip a ;; y <- IResult.flip b ;; IResult.or x y) h)
  /\ result_of ((x <- IResult.or a b ;; IResult.flip x) h)
     = result_of
         ((x <- IResult.flip a ;; y <- IResult.flip b ;; IResult.and x y) h).
Proof.
  destruct Hoa as [Hoa | Hoa]; rewrite Hoa in Ha;
    destruct Hob as [Hob | Hob]; rewrite Hob in Hb; split.
  - rewrite (bind_Return _ _ _ _ _ (and_Ok _ _ _ Ha b)).
    rewrite (bind_eq _ _ _ _ (flip_Ok _ _ _ Ha)), bind_new_Fail.
    rewrite (bind_eq _ _ _ _ (flip_Ok _ _ _ (is_Ok_extend _ _ _ _ Hb))),
      bind_new_Fail.
    rewrite (or_Fail _ _ (value oa)
               (is_Fail_extend _ _ _ _ (is_Fail_alloc h (value oa)))).
    rewrite (flip_Ok _ _ _ Hb), result_of_new_Fail.
    unfold result_of. by rewrite lookup_alloc.
  - rewrite (bind_Return _ _ _ _ _ (or_Ok _ _ _ Ha b)).
    rewrite (bind_eq _ _ _ _ (flip_Ok _ _ _ Ha)), bind_new_Fail.
    rewrite (bind_eq _ _ _ _ (flip_Ok _ _ _ (is_Ok_extend _ _ _ _ Hb))),
      bind_new_Fail.
    rewrite (and_Fail _ _ (value oa)
               (is_Fail_extend _ _ _ _ (is_Fail_alloc h (value oa)))).
    rewrite (flip_Ok _ _ _ Ha). by rewrite !result_of_new_Fail.
  - rewrite (bind_Return _ _ _ _ _ (and_Ok _ _ _ Ha b)).
    rewrite (bind_eq _ _ _ _ (flip_Ok _ _ _ Ha)), bind_new_Fail.
    rewrite (bind_eq _ _ _ _ (flip_Fail _ _ _ (is_Fail_extend _ _ _ _ Hb))),
      bind_new_Ok.
    rewrite (or_Fail _ _ (value oa)
               (is_Fail_extend _ _ _ _ (is_Fail_alloc h (value oa)))).
    rewrite (flip_Fail _ _ _ Hb), result_of_new_Ok.
    unfold result_of. by rewrite lookup_alloc.
  - rewrite (bind_Return _ _ _ _ _ (or_Ok _ _ _ Ha b)).
    rewrite (bind_eq _ _ _ _ (flip_Ok _ _ _ Ha)), bind_new_Fail.
    rewrite (bind_eq _ _ _ _ (flip_Fail _ _ _ (is_Fail_extend _ _ _ _ Hb))),
      bind_new_Ok.
    rewrite (and_Fail _ _ (value oa)
               (is_Fail_extend _ _ _ _ (is_Fail_alloc h (value oa)))).
    rewrite (flip_Ok _ _ _ Ha). by rewrite !result_of_new_Fail.
  - rewrite (bind_eq _ _ _ _ (and_Fail _ _ _ Ha b)), bind_new_Fail.
    rewrite (bind_eq _ _ _ _ (flip_Fail _ _ _ Ha)), bind_new_Ok.
    rewrite (bind_eq _ _ _ _ (flip_Ok _ _ _ (is_Ok_extend _ _ _ _ Hb))),
      bind_new_Fail.
    rewrite (or_Ok _ _ (value oa)
               (is_Ok_extend _ _ _ _ (is_Ok_alloc h (value oa)))).
    rewrite (flip_Fail _ _ _ (is_Fail_alloc _ _)), result_of_new_Ok.
    unfold result_of.
    by rewrite (is_Ok_extend _ _ _ _ (is_Ok_alloc h (value oa))).
  - rewrite (bind_Return _ _ _ _ _ (or_Fail _ _ _ Ha b)).
    rewrite (bind_eq _ _ _ _ (flip_Fail _ _ _ Ha)), bind_new_Ok.
    rewrite (bind_eq _ _ _ _ (flip_Ok _ _ _ (is_Ok_extend _ _ _ _ Hb))),
      bind_new_Fail.
    rewrite (and_Ok _ _ (value oa)
               (is_Ok_extend _ _ _ _ (is_Ok_alloc h (value oa)))).
    rewrite (flip_Ok _ _ _ Hb), result_of_new_Fail.
    unfold result_of. by rewrite lookup_alloc.
  - rewrite (bind_eq _ _ _ _ (and_Fail _ _ _ Ha b)), bind_new_Fail.
    rewrite (bind_eq _ _ _ _ (flip_Fail _ _ _ Ha)), bind_new_Ok.
    rewrite (bind_eq _ _ _ _ (flip_Fail _ _ _ (is_Fail_extend _ _ _ _ Hb))),
      bind_new_Ok.
    rewrite (or_Ok _ _ (value oa)
               (is_Ok_extend _ _ _ _ (is_Ok_alloc h (value oa)))).
    rewrite (flip_Fail _ _ _ (is_Fail_alloc _ _)), result_of_new_Ok.
    unfold result_of.
    by rewrite (is_Ok_extend _ _ _ _ (is_Ok_alloc h (value oa))).
  - rewrite (bind_Return _ _ _ _ _ (or_Fail _ _ _ Ha b)).
    rewrite (bind_eq _ _ _ _ (flip_Fail _ _ _ Ha)), bind_new_Ok.
    rewrite (bind_eq _ _ _ _ (flip_Fail _ _ _ (is_Fail_extend _ _ _ _ Hb))),
      bind_new_Ok.
    rewrite (and_Ok _ _ (value oa)
               (is_Ok_extend _ _ _ _ (is_Ok_alloc h (value oa)))).
    rewrite (flip_Fail _ _ _ Hb), result_of_new_Ok.
    unfold result_of. by rewrite lookup_alloc.
Qed.

Lemma and_or_dual_under_flip_witness :
  result_of
    ((x <- IResult.flip 0 ;; y <- IResult.flip 1 ;; IResult.or x y)
       [Ok_object (VNum 1); Fail_object (VStr "e")])
  = Return (Some (Ok_object (VStr "e"))).
Proof.
  pose proof (and_or_dual_under_flip
                [Ok_object (VNum 1); Fail_object (VStr "e")] 0 1
                (Ok_object (VNum 1)) (Fail_object (VStr "e"))
                eq_refl (or_introl eq_refl) eq_refl (or_intror eq_refl))
    as [Hand _].
  exact (eq_trans (eq_sym Hand) eq_refl).
Defined.
